(** * PairRepeatSampler: pair-level index sampler

    A shallow embedding of [swift/rlhf_trainers/pair_sampler.py] and the
    properties of its construction scan, its stride sharding and its
    emission order.

    Conventions of the embedding
    - Python [int] values (pair ids, sides, seed, epoch, rank, world size,
      repeat count) are [Z]; dataset positions produced by [range(n)] are
      [nat].
    - The dataset is a list of examples, read by position.
    - The inner dictionaries [side -> idx] are [gmap Z nat]; the outer
      dictionary [pair_id -> {side: idx}] keeps insertion order (it is
      turned into the list [self.pairs]), so it is an association list
      whose keys are kept distinct by the insertion function.
    - Python exceptions are the [Raise] results of a small error monad.
      Rows are typed records, so the errors that malformed rows would
      cause in [__init__] are outside the model.
    - The generator returned by [__iter__] is modelled by one full pass:
      the list of the values it yields, or the exception that ends it.
    - [random.Random(s).shuffle] is a parameter of the development; the
      results that depend on it assume only that it permutes its argument. *)

From stdpp Require Import base gmap list sorting.
From Stdlib Require Import ZArith Lia.

(** ** Exceptions and results *)

Inductive exn : Set :=
| ValueError
| KeyError.

Inductive result (A : Type) : Type :=
| Ok (a : A)
| Raise (e : exn).
Arguments Ok {A} a.
Arguments Raise {A} e.

(** Sequencing: the first exception raised ends the computation. *)
Definition bind {A B : Type} (r : result A) (k : A → result B) : result B :=
  match r with
  | Ok a => k a
  | Raise e => Raise e
  end.

Notation "x <- r ;; k" := (bind r (λ x, k))
  (at level 100, r at next level, right associativity).

(** ** Data model *)

(** One dataset row: [ex["pair_id"]] and [ex["side"]]. *)
Record example : Set := Example { pair_id : Z; side : Z }.

#[export] Instance example_eq_dec : EqDecision example.
Proof. solve_decision. Defined.

(** The outer dictionary, in insertion order. *)
Abbreviation odict := (list (Z * gmap Z nat)).

(** The instance attributes set by [__init__]. *)
Record sampler : Type := Sampler {
  data_source : list example;
  n : nat;
  mini_repeat_count : Z;
  shuffle : bool;
  seed : Z;
  rank : Z;
  world_size : Z;
  epoch : Z;
  pair_to : odict;
  pairs : list Z
}.

(** ** Dictionary operations *)

(** [pid in d] / [d[pid]] on the outer dictionary. *)
Fixpoint od_lookup (d : odict) (pid : Z) : option (gmap Z nat) :=
  match d with
  | [] => None
  | (k, m) :: rest => if decide (k = pid) then Some m else od_lookup rest pid
  end.

(** [pair_to[pid][side] = idx] on a [defaultdict(dict)]: a missing [pid]
    first gets a fresh empty dictionary, placed after the existing keys;
    an existing one is updated where it stands. *)
Fixpoint setitem_side (pair_to : odict) (pid sd : Z) (idx : nat) : odict :=
  match pair_to with
  | [] => [(pid, <[sd := idx]> ∅)]
  | (k, m) :: rest =>
      if decide (k = pid) then (k, <[sd := idx]> m) :: rest
      else (k, m) :: setitem_side rest pid sd idx
  end.

(** [d[pid]], raising [KeyError] on a missing key. *)
Definition getitem (d : odict) (pid : Z) : result (gmap Z nat) :=
  match od_lookup d pid with
  | Some m => Ok m
  | None => Raise KeyError
  end.

(** [m[sd]], raising [KeyError] on a missing key. *)
Definition getside (m : gmap Z nat) (sd : Z) : result nat :=
  match m !! sd with
  | Some idx => Ok idx
  | None => Raise KeyError
  end.

(** ** Construction *)

(** The loop [for idx in range(self.n)] of [__init__]: [rows] are the rows
    [data_source[idx], data_source[idx+1], ...] still to be visited. *)
Fixpoint scan (rows : list example) (idx : nat) (pair_to : odict) : odict :=
  match rows with
  | [] => pair_to
  | ex :: rest =>
      let pid := pair_id ex in
      let sd := side ex in
      scan rest (S idx) (setitem_side pair_to pid sd idx)
  end.

(** [0 in d and 1 in d]. *)
Definition complete (d : gmap Z nat) : Prop :=
  is_Some (d !! 0%Z) ∧ is_Some (d !! 1%Z).

#[export] Instance complete_dec d : Decision (complete d).
Proof. unfold complete. apply _. Defined.

Definition __init__ (data_source : list example) (mini_repeat_count : Z)
    (shuffle : bool) (seed rank world_size : Z) : result sampler :=
  let n := length data_source in
  let pair_to := scan data_source 0 [] in
  let pair_to := filter (λ item, complete item.2) pair_to in
  if decide (length pair_to = 0) then Raise ValueError
  else Ok {| data_source := data_source;
             n := n;
             mini_repeat_count := mini_repeat_count;
             shuffle := shuffle;
             seed := seed;
             rank := rank;
             world_size := world_size;
             epoch := 0;
             pair_to := pair_to;
             pairs := pair_to.*1 |}.

Definition set_epoch (self : sampler) (e : Z) : sampler :=
  {| data_source := data_source self;
     n := n self;
     mini_repeat_count := mini_repeat_count self;
     shuffle := shuffle self;
     seed := seed self;
     rank := rank self;
     world_size := world_size self;
     epoch := e;
     pair_to := pair_to self;
     pairs := pairs self |}.

(** ** Extended slices [l[start::step]] *)

(** The positions selected by [l[start::step]] on a list of length [len],
    as Python computes them: a zero step is rejected, a negative [start]
    counts from the end, out-of-range starts are clipped, and the stop
    defaults to the end of the list in the direction of the step. *)
Definition slice_indices (len : nat) (start step : Z) : result (list nat) :=
  let len := Z.of_nat len in
  if decide (step = 0)%Z then Raise ValueError
  else
    let start :=
      if decide (start < 0)%Z then
        if decide (start + len < 0)%Z
        then (if decide (step < 0)%Z then -1 else 0)%Z
        else (start + len)%Z
      else if decide (len ≤ start)%Z
        then (if decide (step < 0)%Z then len - 1 else len)%Z
        else start in
    let stop := (if decide (step < 0)%Z then -1 else len)%Z in
    let count :=
      if decide (step < 0)%Z then
        if decide (stop < start)%Z
        then ((start - stop - 1) `div` (- step) + 1)%Z else 0%Z
      else
        if decide (start < stop)%Z
        then ((stop - start - 1) `div` step + 1)%Z else 0%Z in
    Ok ((λ i : nat, Z.to_nat (start + Z.of_nat i * step)) <$>
          seq 0 (Z.to_nat count)).

Definition slice_from {A : Type} (l : list A) (start step : Z)
    : result (list A) :=
  idxs <- slice_indices (length l) start step ;;
  Ok (omap (λ i, l !! i) idxs).

(** ** Iteration and length *)

(** The emission loop of [__iter__] over the pairs of this worker. *)
Fixpoint emit (pair_to : odict) (K : Z) (pids : list Z) : result (list nat) :=
  match pids with
  | [] => Ok []
  | pid :: rest =>
      d0 <- getitem pair_to pid ;;
      idx0 <- getside d0 0 ;;
      d1 <- getitem pair_to pid ;;
      idx1 <- getside d1 1 ;;
      out <- emit pair_to K rest ;;
      Ok (replicate (Z.to_nat K) idx0 ++ replicate (Z.to_nat K) idx1 ++ out)
  end.

Section Sampler.

(** [random_shuffle s l] is the content of [l] after
    [random.Random(s).shuffle(l)]. *)
Variable random_shuffle : Z → list Z → list Z.

(** The pair list of one pass, after the optional shuffle. *)
Definition pass_order (self : sampler) : list Z :=
  let pairs := pairs self in
  if shuffle self then random_shuffle (seed self + epoch self) pairs
  else pairs.

(** The pairs of this worker for one pass: [pairs[rank::world_size]]. *)
Definition local_pairs (self : sampler) : result (list Z) :=
  slice_from (pass_order self) (rank self) (world_size self).

(** One full pass of the generator returned by [__iter__]. *)
Definition __iter__ (self : sampler) : result (list nat) :=
  pairs <- local_pairs self ;;
  emit (pair_to self) (mini_repeat_count self) pairs.

Definition __len__ (self : sampler) : result Z :=
  local <- slice_from (pairs self) (rank self) (world_size self) ;;
  let local_pairs := Z.of_nat (length local) in
  Ok (local_pairs * 2 * mini_repeat_count self)%Z.

End Sampler.

(** Instances that a program can hold: built by [__init__], then updated
    by [set_epoch] any number of times. *)
Inductive reachable : sampler → Prop :=
| reachable_init ds K sh sd r w s :
    __init__ ds K sh sd r w = Ok s → reachable s
| reachable_set_epoch s e :
    reachable s → reachable (set_epoch s e).

(** ** Vocabulary of the statements *)

(** [pair_to[pid][sd]] as a partial function. *)
Definition od_get (d : odict) (pid sd : Z) : option nat :=
  m ← od_lookup d pid; m !! sd.

(** Row [i] of the dataset carries pair id [pid] and side [sd]. *)
Definition occurs (ds : list example) (pid sd : Z) (i : nat) : Prop :=
  ds !! i = Some (Example pid sd).

(** Row [i] is the last row of the dataset with pair id [pid] and side
    [sd]. *)
Definition last_occurrence (ds : list example) (pid sd : Z) (i : nat) : Prop :=
  occurs ds pid sd i ∧ ∀ j, i < j → ¬ occurs ds pid sd j.

(** The dataset has a side-0 row and a side-1 row for [pid]. *)
Definition complete_in (ds : list example) (pid : Z) : Prop :=
  (∃ i, occurs ds pid 0 i) ∧ (∃ j, occurs ds pid 1 j).

(** Position of the first row of the dataset whose pair id is [pid]. *)
Definition first_seen (ds : list example) (pid : Z) : option nat :=
  fst <$> list_find (λ ex, pair_id ex = pid) ds.

(** [p] is met before [q] in the construction scan. *)
Definition seen_before (ds : list example) (p q : Z) : Prop :=
  ∃ i j, first_seen ds p = Some i ∧ first_seen ds q = Some j ∧ i < j.

(** What the emission loop produces for one pair whose sides sit at rows
    [i0] and [i1]. *)
Definition block (K : Z) (i0 i1 : nat) : list nat :=
  replicate (Z.to_nat K) i0 ++ replicate (Z.to_nat K) i1.

(** The dictionary that [__init__] stores for the dataset [ds]. *)
Definition built (ds : list example) : odict :=
  filter (λ item, complete item.2) (scan ds 0 []).

(** In the dictionary [d], the sides of pair [pid] sit at the rows
    [rows.1] (side 0) and [rows.2] (side 1). *)
Definition pair_rows (d : odict) (pid : Z) (rows : nat * nat) : Prop :=
  od_get d pid 0 = Some rows.1 ∧ od_get d pid 1 = Some rows.2.

(** The output of a pass over pairs whose sides sit at [rows]. *)
Definition blocks (K : Z) (rows : list (nat * nat)) : list nat :=
  concat ((λ r, block K r.1 r.2) <$> rows).

(** What holds of every instance a program can hold. *)
Record invariant (s : sampler) : Prop := {
  inv_pair_to : pair_to s = built (data_source s);
  inv_pairs : pairs s = (pair_to s).*1;
  inv_n : n s = length (data_source s);
  inv_nonempty : pair_to s ≠ []
}.

(** The instance that worker [r] holds when it is built from the same
    arguments as [s] and has been given the same epoch. *)
Definition on_rank (s : sampler) (r : Z) : sampler :=
  {| data_source := data_source s;
     n := n s;
     mini_repeat_count := mini_repeat_count s;
     shuffle := shuffle s;
     seed := seed s;
     rank := r;
     world_size := world_size s;
     epoch := epoch s;
     pair_to := pair_to s;
     pairs := pairs s |}.

(** ** Example datasets and instances *)

(** Pairs 1 and 2 are complete, pair 3 has its side 0 only. *)
Definition ds3 : list example :=
  [ Example 1 0; Example 1 1; Example 2 0; Example 2 1; Example 3 0 ].

(** Ten rows in which pair 7 alone is complete: side 0 at row 5, side 1
    at row 9. *)
Definition ds59 : list example :=
  [ Example 4 0; Example 6 1; Example 8 0; Example 4 0; Example 6 1;
    Example 7 0; Example 8 0; Example 4 2; Example 6 1; Example 7 1 ].

(** A stand-in for the library shuffle, used to run the model. *)
Definition demo_shuffle (s : Z) (l : list Z) : list Z :=
  if Z.even s then l else reverse l.

(** Four complete pairs (1, 2, 3 and 5) and a lone row of pair 6. *)
Definition ds8 : list example :=
  [ Example 1 0; Example 2 0; Example 1 1; Example 3 0; Example 2 1;
    Example 3 1; Example 5 1; Example 5 0; Example 6 0 ].


(** Pair 7 with its side 0 given twice, at rows 0 and 2. *)
Definition dsdup : list example :=
  [ Example 7 0; Example 7 1; Example 7 0; Example 9 0 ].

(** The instance built from [ds59] with [K = 3] on a single worker. *)
Definition s59 : sampler :=
  Sampler ds59 10 3 true 11 0 1 0 (built ds59) (built ds59).*1.

(** Rank 0 of two workers over [ds8], shuffle on, [K = 2]. *)
Definition s8 : sampler :=
  Sampler ds8 9 2 true 3 0 2 0 (built ds8) (built ds8).*1.


(** A single worker over [ds3], shuffle off. *)
Definition s3 : sampler :=
  Sampler ds3 5 3 false 0 0 1 0 (built ds3) (built ds3).*1.

(** A single worker over [dsdup], shuffle off. *)
Definition sdup : sampler :=
  Sampler dsdup 4 2 false 0 0 1 0 (built dsdup) (built dsdup).*1.

(** A single worker over [ds3] with a negative repeat count. *)
Definition s3_neg : sampler :=
  Sampler ds3 5 (-1) false 0 0 1 0 (built ds3) (built ds3).*1.

(** A single rank over [ds3] with the world size 0. *)
Definition s3_w0 : sampler :=
  Sampler ds3 5 3 false 0 0 0 0 (built ds3) (built ds3).*1.

(** Rank 0 of three workers over [ds8]. *)
Definition s8w3 : sampler :=
  Sampler ds8 9 2 true 3 0 3 0 (built ds8) (built ds8).*1.

(** [s8] built with the seed 5 instead of 3. *)
Definition s8_seed5 : sampler :=
  Sampler ds8 9 2 true 5 0 2 0 (built ds8) (built ds8).*1.

(** ** The outer dictionary *)

Lemma od_lookup_None (d : odict) pid :
  od_lookup d pid = None ↔ pid ∉ d.*1.
Proof.
  induction d as [|[k m] d IH]; csimpl.
  - split; [intros _; apply not_elem_of_nil | done].
  - rewrite not_elem_of_cons. case_decide; subst.
    + split; [done | intros [? _]; done].
    + rewrite IH. split; [intros ?; split; [congruence | done] | intros [_ ?]; done].
Qed.

Lemma od_lookup_Some_elem (d : odict) pid m :
  od_lookup d pid = Some m → (pid, m) ∈ d.
Proof.
  induction d as [|[k m'] d IH]; simpl; [done|].
  case_decide; subst.
  - intros [= ->]. apply list_elem_of_here.
  - intros ?. apply list_elem_of_further. auto.
Qed.

Lemma od_lookup_is_Some (d : odict) pid :
  is_Some (od_lookup d pid) ↔ pid ∈ d.*1.
Proof.
  rewrite <- not_eq_None_Some, od_lookup_None.
  split; [apply dec_stable | auto].
Qed.

Lemma od_lookup_setitem_side (d : odict) pid sd idx p :
  od_lookup (setitem_side d pid sd idx) p =
    if decide (p = pid)
    then Some (<[sd := idx]> (default ∅ (od_lookup d pid)))
    else od_lookup d p.
Proof.
  induction d as [|[k m] d IH]; simpl.
  - repeat case_decide; congruence.
  - destruct (decide (k = pid)) as [->|Hk]; simpl.
    + repeat case_decide; congruence.
    + rewrite IH. repeat case_decide; congruence.
Qed.

Lemma keys_setitem_side (d : odict) pid sd idx :
  (setitem_side d pid sd idx).*1 =
    if decide (pid ∈ d.*1) then d.*1 else d.*1 ++ [pid].
Proof.
  induction d as [|[k m] d IH]; csimpl.
  - done.
  - destruct (decide (k = pid)) as [->|Hk]; csimpl.
    + rewrite decide_True; [done | apply list_elem_of_here].
    + rewrite IH. destruct (decide (pid ∈ d.*1)) as [Hin|Hin].
      * rewrite decide_True; [done | by apply list_elem_of_further].
      * rewrite decide_False; [done|].
        rewrite elem_of_cons. intros [?|?]; congruence.
Qed.

Lemma od_get_setitem_side (d : odict) pid sd idx p s :
  od_get (setitem_side d pid sd idx) p s =
    if decide (p = pid ∧ s = sd) then Some idx else od_get d p s.
Proof.
  unfold od_get. rewrite od_lookup_setitem_side.
  destruct (decide (p = pid)) as [->|Hp]; simpl.
  - destruct (decide (s = sd)) as [->|Hs].
    + rewrite decide_True by done. apply lookup_insert_eq.
    + rewrite decide_False by (intros [? ?]; done).
      rewrite lookup_insert_ne by done.
      destruct (od_lookup d pid); [done | apply lookup_empty].
  - rewrite decide_False by (intros [? ?]; done). done.
Qed.

Lemma od_lookup_filter (P : gmap Z nat → Prop) `{!∀ m, Decision (P m)}
    (d : odict) pid :
  NoDup d.*1 →
  od_lookup (filter (λ item, P item.2) d) pid =
    m ← od_lookup d pid; if decide (P m) then Some m else None.
Proof.
  induction d as [|[k m] d IH]; simpl; [done|].
  rewrite NoDup_cons. intros [Hk Hnd].
  rewrite filter_cons. simpl.
  destruct (decide (k = pid)) as [->|Hne]; simpl.
  - destruct (decide (P m)); simpl.
    + rewrite decide_True; done.
    + rewrite IH by done.
      apply od_lookup_None in Hk. rewrite Hk. done.
  - destruct (decide (P m)); simpl; [rewrite decide_False by done|]; auto.
Qed.

(** ** The construction scan *)

Lemma example_eta ex : Example (pair_id ex) (side ex) = ex.
Proof. by destruct ex. Qed.

Lemma scan_snoc rows ex idx acc :
  scan (rows ++ [ex]) idx acc =
    setitem_side (scan rows idx acc) (pair_id ex) (side ex)
      (idx + length rows).
Proof.
  revert idx acc. induction rows as [|ex' rows IH]; intros idx acc; simpl.
  - by rewrite Nat.add_0_r.
  - rewrite IH. f_equal. lia.
Qed.

(** The scan is one left-to-right pass over the positions [0 .. n-1],
    reading each row once. *)
Lemma scan_positions pre rows acc :
  scan rows (length pre) acc =
    foldl (λ acc idx,
             match (pre ++ rows) !! idx with
             | Some ex => setitem_side acc (pair_id ex) (side ex) idx
             | None => acc
             end) acc (seq (length pre) (length rows)).
Proof.
  revert pre acc. induction rows as [|ex rows IH]; intros pre acc; [done|].
  simpl. rewrite list_lookup_middle by done.
  specialize (IH (pre ++ [ex])).
  rewrite length_app, Nat.add_1_r, <- app_assoc in IH. apply IH.
Qed.

Lemma occurs_lt ds p s i : occurs ds p s i → i < length ds.
Proof. unfold occurs. apply lookup_lt_Some. Qed.

Lemma occurs_snoc ds ex p s j :
  occurs (ds ++ [ex]) p s j ↔
    occurs ds p s j ∨ (j = length ds ∧ ex = Example p s).
Proof.
  unfold occurs. destruct (decide (j < length ds)) as [Hlt|Hge].
  - rewrite lookup_app_l by done. split; [auto | intros [?|[? _]]; [done|lia]].
  - rewrite lookup_app_r by lia. split.
    + intros H. right. destruct (j - length ds) as [|k] eqn:E; simpl in H.
      * split; [lia | congruence].
      * by rewrite lookup_nil in H.
    + intros [H|[-> ->]].
      * apply lookup_lt_Some in H. lia.
      * by rewrite Nat.sub_diag.
Qed.

Lemma last_occurrence_snoc_same ds p s i :
  last_occurrence (ds ++ [Example p s]) p s i ↔ i = length ds.
Proof.
  unfold last_occurrence. split.
  - intros [Hi Hlast]. pose proof (occurs_lt _ _ _ _ Hi) as Hlt.
    rewrite length_app in Hlt. simpl in Hlt.
    destruct (decide (i = length ds)) as [|Hne]; [done|].
    exfalso. apply (Hlast (length ds)); [lia|].
    apply occurs_snoc. auto.
  - intros ->. split.
    + apply occurs_snoc. auto.
    + intros j Hj Hocc. apply occurs_lt in Hocc.
      rewrite length_app in Hocc. simpl in Hocc. lia.
Qed.

Lemma last_occurrence_snoc_other ds ex p s i :
  ex ≠ Example p s →
  last_occurrence (ds ++ [ex]) p s i ↔ last_occurrence ds p s i.
Proof.
  intros Hne. unfold last_occurrence.
  assert (∀ j, occurs (ds ++ [ex]) p s j ↔ occurs ds p s j) as Hocc.
  { intros j. rewrite occurs_snoc. split; [intros [?|[_ ?]]; done | auto]. }
  rewrite Hocc. by setoid_rewrite Hocc.
Qed.

(** Last writer wins: after the scan, [pair_to[p][s]] is the last row
    carrying [(p, s)]. *)
Lemma scan_od_get ds p s i :
  od_get (scan ds 0 []) p s = Some i ↔ last_occurrence ds p s i.
Proof.
  revert i. induction ds as [|ex ds IH] using rev_ind; intros i.
  - simpl. split; [done|]. intros [H _]. apply occurs_lt in H. simpl in H. lia.
  - rewrite scan_snoc, od_get_setitem_side. simpl.
    destruct (decide (p = pair_id ex ∧ s = side ex)) as [[-> ->]|Hne].
    + rewrite <- (example_eta ex) at 1.
      rewrite last_occurrence_snoc_same. split; congruence.
    + rewrite last_occurrence_snoc_other; [apply IH|].
      intros ->. by apply Hne.
Qed.

Lemma scan_od_get_is_Some ds p s :
  is_Some (od_get (scan ds 0 []) p s) ↔ ∃ i, occurs ds p s i.
Proof.
  induction ds as [|ex ds IH] using rev_ind.
  - simpl. split; [by intros [? ?] | intros [? H%occurs_lt]; simpl in H; lia].
  - rewrite scan_snoc, od_get_setitem_side. simpl.
    setoid_rewrite occurs_snoc.
    destruct (decide (p = pair_id ex ∧ s = side ex)) as [[-> ->]|Hne].
    + split; [|by eauto]. intros _. exists (length ds). right.
      by rewrite example_eta.
    + rewrite IH. split; [intros [i ?]; eauto|].
      intros [i [?|[_ ->]]]; [eauto|]. by destruct Hne.
Qed.

Lemma scan_keys ds : ∀ p, p ∈ (scan ds 0 []).*1 ↔ p ∈ pair_id <$> ds.
Proof.
  induction ds as [|ex ds IH] using rev_ind; intros p; [done|].
  rewrite scan_snoc, keys_setitem_side, fmap_app, elem_of_app. simpl.
  rewrite list_elem_of_singleton.
  case_decide as Hin.
  - rewrite IH. split; [auto|]. intros [?| ->]; [done | by apply IH].
  - by rewrite elem_of_app, list_elem_of_singleton, IH.
Qed.

Lemma scan_keys_NoDup ds : NoDup (scan ds 0 []).*1.
Proof.
  induction ds as [|ex ds IH] using rev_ind; [constructor|].
  rewrite scan_snoc, keys_setitem_side. case_decide as Hin; [done|].
  apply NoDup_app. split_and!; [done| |apply NoDup_singleton].
  intros x Hx ->%list_elem_of_singleton. done.
Qed.

(** ** Discovery order *)

Lemma first_seen_Some ds p i :
  first_seen ds p = Some i ↔
    (∃ ex, ds !! i = Some ex ∧ pair_id ex = p) ∧
    (∀ j ex, ds !! j = Some ex → j < i → pair_id ex ≠ p).
Proof.
  unfold first_seen. rewrite fmap_Some. split.
  - intros [[i' ex] [Hfind ->]]. simpl.
    apply list_find_Some in Hfind as (? & ? & ?). eauto.
  - intros [(ex & Hi & Hp) Hfirst]. exists (i, ex). split; [|done].
    apply list_find_Some. eauto.
Qed.

Lemma first_seen_lt ds p i : first_seen ds p = Some i → i < length ds.
Proof.
  rewrite first_seen_Some. intros [(ex & H & _) _].
  by apply lookup_lt_Some in H.
Qed.

Lemma first_seen_None ds p : first_seen ds p = None ↔ p ∉ pair_id <$> ds.
Proof.
  unfold first_seen. rewrite fmap_None, list_find_None, Forall_forall.
  rewrite list_elem_of_fmap. split.
  - intros H (ex & -> & Hin). by apply (H ex).
  - intros H ex Hin Hp. apply H. eauto.
Qed.

Lemma first_seen_snoc_old ds ex p i :
  first_seen ds p = Some i → first_seen (ds ++ [ex]) p = Some i.
Proof.
  unfold first_seen. rewrite !fmap_Some.
  intros [[i' ex'] [Hfind ->]]. exists (i', ex'). split; [|done].
  by apply list_find_app_l.
Qed.

Lemma first_seen_snoc_new ds ex :
  pair_id ex ∉ pair_id <$> ds →
  first_seen (ds ++ [ex]) (pair_id ex) = Some (length ds).
Proof.
  intros Hnew. apply first_seen_Some. split.
  - exists ex. by rewrite list_lookup_middle.
  - intros j ex' Hj Hlt Hp. apply Hnew.
    rewrite lookup_app_l in Hj by done.
    apply list_elem_of_fmap. exists ex'. split; [done|].
    by apply list_elem_of_lookup_2 in Hj.
Qed.

Lemma seen_before_snoc ds ex p q :
  seen_before ds p q → seen_before (ds ++ [ex]) p q.
Proof.
  intros (i & j & Hp & Hq & Hlt). exists i, j.
  split_and!; [by apply first_seen_snoc_old..|done].
Qed.

Lemma StronglySorted_mono {A} (R1 R2 : relation A) l :
  (∀ x y, R1 x y → R2 x y) → StronglySorted R1 l → StronglySorted R2 l.
Proof.
  intros HR. induction 1 as [|x l _ IH Hx]; constructor; [done|].
  eapply Forall_impl; [exact Hx | auto].
Qed.

Lemma StronglySorted_sublist {A} (R : relation A) l1 l2 :
  l1 `sublist_of` l2 → StronglySorted R l2 → StronglySorted R l1.
Proof.
  induction 1 as [|x l1 l2 Hsub IH|x l1 l2 Hsub IH];
    rewrite ?StronglySorted_cons; [done| |].
  - intros [Hx Hs]. split; [|auto].
    rewrite Forall_forall in Hx |- *. intros y Hy. apply Hx.
    by eapply elem_of_sublist.
  - intros [_ Hs]. auto.
Qed.

Lemma StronglySorted_lookup {A} (R : relation A) l a b x y :
  StronglySorted R l → a < b → l !! a = Some x → l !! b = Some y → R x y.
Proof.
  intros Hs. revert a b. induction Hs as [|z l Hs IH Hz]; intros a b Hab Ha Hb.
  - by rewrite lookup_nil in Ha.
  - destruct b as [|b]; [lia|]. simpl in Hb. destruct a as [|a]; simpl in Ha.
    + injection Ha as ->. rewrite Forall_forall in Hz. apply Hz.
      by eapply list_elem_of_lookup_2.
    + apply (IH a b); [lia|done..].
Qed.

(** The keys of the scanned dictionary stand in the order in which the
    scan first met them. *)
Lemma scan_keys_sorted ds : StronglySorted (seen_before ds) (scan ds 0 []).*1.
Proof.
  induction ds as [|ex ds IH] using rev_ind; [constructor|].
  apply (StronglySorted_mono _ (seen_before (ds ++ [ex]))) in IH;
    [|intros ? ?; apply seen_before_snoc].
  rewrite scan_snoc, keys_setitem_side. case_decide as Hin; [done|].
  apply StronglySorted_app_2; [|done|repeat constructor].
  intros p q Hp ->%list_elem_of_singleton.
  rewrite scan_keys in Hp, Hin.
  destruct (first_seen ds p) as [i|] eqn:Hi;
    [|by apply first_seen_None in Hi].
  exists i, (length ds). split_and!.
  - by apply first_seen_snoc_old.
  - by apply first_seen_snoc_new.
  - by apply first_seen_lt in Hi.
Qed.

(** ** The stored dictionary *)

Lemma built_keys_sublist ds : (built ds).*1 `sublist_of` (scan ds 0 []).*1.
Proof. apply fmap_sublist, sublist_filter. Qed.

Lemma built_keys_NoDup ds : NoDup (built ds).*1.
Proof.
  eapply sublist_NoDup; [apply scan_keys_NoDup | apply built_keys_sublist].
Qed.

Lemma built_keys_sorted ds : StronglySorted (seen_before ds) (built ds).*1.
Proof.
  eapply StronglySorted_sublist;
    [apply built_keys_sublist | apply scan_keys_sorted].
Qed.

Lemma built_lookup ds p m :
  od_lookup (built ds) p = Some m ↔
    od_lookup (scan ds 0 []) p = Some m ∧ complete m.
Proof.
  unfold built. rewrite od_lookup_filter by apply scan_keys_NoDup.
  destruct (od_lookup (scan ds 0 []) p) as [m'|]; simpl.
  - case_decide; split.
    + by intros [= ->].
    + by intros [? _].
    + done.
    + intros [[= ->] ?]. done.
  - split; [done | by intros [? _]].
Qed.

Lemma od_get_lookup (d : odict) p s m :
  od_lookup d p = Some m → od_get d p s = m !! s.
Proof. unfold od_get. by intros ->. Qed.

Lemma complete_scan ds p :
  (∃ m, od_lookup (scan ds 0 []) p = Some m ∧ complete m) ↔ complete_in ds p.
Proof.
  unfold complete_in. rewrite <- !scan_od_get_is_Some. split.
  - intros (m & Hm & H0 & H1). by rewrite !(od_get_lookup _ _ _ m Hm).
  - intros [H0 H1]. unfold od_get in H0, H1.
    destruct (od_lookup (scan ds 0 []) p) as [m|]; simpl in *.
    + exists m. by repeat split.
    + by destruct H0.
Qed.

Lemma built_keys ds p : p ∈ (built ds).*1 ↔ complete_in ds p.
Proof.
  rewrite <- od_lookup_is_Some, <- complete_scan. unfold is_Some.
  by setoid_rewrite built_lookup.
Qed.

Lemma built_od_get ds p s i :
  od_get (built ds) p s = Some i ↔ complete_in ds p ∧ last_occurrence ds p s i.
Proof.
  rewrite <- scan_od_get, <- built_keys, <- od_lookup_is_Some. split.
  - intros H. unfold od_get in H.
    destruct (od_lookup (built ds) p) as [m|] eqn:Hm; [|done].
    split; [done|]. apply built_lookup in Hm as [Hm _].
    by rewrite (od_get_lookup _ _ _ m Hm).
  - intros [[m Hm] H]. rewrite (od_get_lookup _ _ _ m Hm).
    apply built_lookup in Hm as [Hm _].
    by rewrite (od_get_lookup _ _ _ m Hm) in H.
Qed.

(** Both sides of every stored pair can be read back. *)
Lemma built_sides ds p :
  p ∈ (built ds).*1 →
  ∃ m i0 i1, od_lookup (built ds) p = Some m ∧
    m !! 0%Z = Some i0 ∧ m !! 1%Z = Some i1.
Proof.
  intros [m Hm]%od_lookup_is_Some.
  pose proof Hm as [_ [[i0 H0] [i1 H1]]]%built_lookup. eauto 10.
Qed.

(** ** Results of construction *)

Lemma init_Ok ds K sh sd r w s :
  __init__ ds K sh sd r w = Ok s ↔
    built ds ≠ [] ∧
    s = Sampler ds (length ds) K sh sd r w 0 (built ds) (built ds).*1.
Proof.
  unfold __init__. fold (built ds). case_decide as Hlen.
  - apply nil_length_inv in Hlen. split; [done | by intros [? _]].
  - split.
    + intros [= <-]. split; [|done]. intros Hnil. by rewrite Hnil in Hlen.
    + by intros [_ ->].
Qed.

Lemma init_Raise ds K sh sd r w e :
  __init__ ds K sh sd r w = Raise e ↔ e = ValueError ∧ built ds = [].
Proof.
  unfold __init__. fold (built ds). case_decide as Hlen.
  - apply nil_length_inv in Hlen. split; [by intros [= <-] | by intros [-> _]].
  - split; [done|]. intros [_ Hnil]. by rewrite Hnil in Hlen.
Qed.

Lemma built_nonempty ds : built ds ≠ [] ↔ ∃ p, complete_in ds p.
Proof.
  setoid_rewrite <- built_keys. destruct (built ds) as [|[k m] d]; csimpl.
  - split; [done|]. by intros [p Hp%elem_of_nil].
  - split; [|done]. intros _. exists k. apply list_elem_of_here.
Qed.

Lemma reachable_invariant s : reachable s → invariant s.
Proof.
  induction 1 as [ds K sh sd r w s Hinit|s e _ [? ? ? ?]].
  - apply init_Ok in Hinit as [Hne ->]. by split.
  - by split.
Qed.

(** ** Slices *)

Lemma div_count_le (a b k : Z) :
  (0 < b → 0 ≤ a → k < a `div` b + 1 → k * b ≤ a)%Z.
Proof.
  intros Hb Ha Hk. pose proof (Z.mul_div_le a b Hb). nia.
Qed.

Lemma div_count_gt (a b k : Z) :
  (0 < b → 0 ≤ a → a `div` b + 1 ≤ k → a < k * b)%Z.
Proof.
  intros Hb Ha Hk. pose proof (Z.mul_succ_div_gt a b Hb). nia.
Qed.

Lemma slice_indices_Ok len start step :
  step ≠ 0%Z → ∃ idxs, slice_indices len start step = Ok idxs.
Proof. intros Hstep. unfold slice_indices. rewrite decide_False by done. eauto. Qed.

Lemma slice_indices_Raise len start step e :
  slice_indices len start step = Raise e ↔ e = ValueError ∧ step = 0%Z.
Proof.
  unfold slice_indices. case_decide; split; try done.
  - by intros [= <-].
  - by intros [-> _].
  - by intros [_ ?].
Qed.

(** Every selected position lies inside the list. *)
Lemma slice_indices_lt len start step idxs :
  slice_indices len start step = Ok idxs → Forall (λ i, i < len) idxs.
Proof.
  unfold slice_indices. case_decide as Hstep; [done|]. intros [= <-].
  apply Forall_forall. intros i (k & -> & [_ Hk]%elem_of_seq)%list_elem_of_fmap.
  simpl in Hk.
  repeat case_decide; try (simpl in Hk; lia).
  all: match type of Hk with
       | _ < Z.to_nat (?a `div` ?b + 1) =>
           assert (Z.of_nat k * b ≤ a)%Z by (apply div_count_le; lia)
       end; lia.
Qed.

(** For a non-negative start and a positive step the positions are
    [start, start + step, start + 2 * step, ...] below [len]. *)
Lemma slice_indices_stride len (r w : nat) :
  0 < w →
  ∃ idxs, slice_indices len (Z.of_nat r) (Z.of_nat w) = Ok idxs ∧
    ∀ k, idxs !! k =
           if decide (r + k * w < len) then Some (r + k * w) else None.
Proof.
  intros Hw. unfold slice_indices. rewrite decide_False by lia.
  eexists. split; [done|]. intros k.
  rewrite list_lookup_fmap.
  rewrite (decide_False (P := (Z.of_nat r < 0)%Z)) by lia.
  rewrite !(decide_False (P := (Z.of_nat w < 0)%Z)) by lia.
  destruct (decide (Z.of_nat len ≤ Z.of_nat r)%Z) as [Hle|Hgt].
  - rewrite decide_False by lia. simpl.
    rewrite decide_False by lia. done.
  - rewrite decide_True by lia.
    set (a := (Z.of_nat len - Z.of_nat r - 1)%Z).
    destruct (decide (r + k * w < len)) as [Hk|Hk].
    + rewrite lookup_seq_lt.
      * simpl. f_equal. lia.
      * destruct (decide (Z.of_nat k < a `div` Z.of_nat w + 1)%Z); [lia|].
        assert (a < Z.of_nat k * Z.of_nat w)%Z
          by (apply div_count_gt; lia).
        lia.
    + rewrite lookup_seq_ge; [done|].
      destruct (decide (Z.of_nat k < a `div` Z.of_nat w + 1)%Z); [|lia].
      assert (Z.of_nat k * Z.of_nat w ≤ a)%Z by (apply div_count_le; lia).
      lia.
Qed.

Lemma omap_lookup_total {A} (l : list A) idxs :
  Forall (λ i, i < length l) idxs →
  length (omap (λ i, l !! i) idxs) = length idxs ∧
  ∀ k, omap (λ i, l !! i) idxs !! k = (i ← idxs !! k; l !! i).
Proof.
  induction 1 as [|i idxs Hi _ [IHlen IH]]; [done|].
  apply lookup_lt_is_Some in Hi as [x Hx]. csimpl. rewrite Hx. csimpl.
  split; [by rewrite IHlen|]. intros [|k]; csimpl; [done | apply IH].
Qed.

Lemma slice_from_Ok {A} (l : list A) start step :
  step ≠ 0%Z → ∃ l', slice_from l start step = Ok l'.
Proof.
  intros Hstep. unfold slice_from.
  destruct (slice_indices_Ok (length l) start step Hstep) as [idxs ->].
  simpl. eauto.
Qed.

Lemma slice_from_Raise {A} (l : list A) start step e :
  slice_from l start step = Raise e ↔ e = ValueError ∧ step = 0%Z.
Proof.
  unfold slice_from. rewrite <- (slice_indices_Raise (length l) start).
  destruct (slice_indices (length l) start step); simpl; split; congruence.
Qed.

Lemma slice_from_elem_of {A} (l l' : list A) start step x :
  slice_from l start step = Ok l' → x ∈ l' → x ∈ l.
Proof.
  unfold slice_from. destruct (slice_indices _ _ _); [|done].
  simpl. intros [= <-] (i & _ & Hi)%list_elem_of_omap.
  by eapply list_elem_of_lookup_2.
Qed.

(** The number of selected elements depends on the length of the list
    only. *)
Lemma slice_from_length {A B} (l1 : list A) (l2 : list B) start step l1' l2' :
  length l1 = length l2 →
  slice_from l1 start step = Ok l1' →
  slice_from l2 start step = Ok l2' →
  length l1' = length l2'.
Proof.
  unfold slice_from. intros Hlen. rewrite <- Hlen.
  destruct (slice_indices _ _ _) as [idxs|] eqn:Hidxs; [|done].
  simpl. intros [= <-] [= <-].
  apply slice_indices_lt in Hidxs.
  destruct (omap_lookup_total l1 idxs) as [-> _]; [done|].
  rewrite Hlen in Hidxs.
  by destruct (omap_lookup_total l2 idxs) as [-> _].
Qed.

(** [l[r::w]] for a worker [r] out of [w]: the elements of [l] at the
    positions [r, r + w, r + 2 * w, ...]. *)
Lemma slice_from_stride {A} (l : list A) (r w : nat) :
  0 < w →
  ∃ l', slice_from l (Z.of_nat r) (Z.of_nat w) = Ok l' ∧
    ∀ k, l' !! k = l !! (r + k * w).
Proof.
  intros Hw. unfold slice_from.
  destruct (slice_indices_stride (length l) r w Hw) as (idxs & Hidxs & Hk).
  rewrite Hidxs. simpl. eexists. split; [done|]. intros k.
  apply slice_indices_lt in Hidxs.
  destruct (omap_lookup_total l idxs Hidxs) as [_ ->].
  rewrite Hk. case_decide; simpl; [done|].
  symmetry. apply lookup_ge_None. lia.
Qed.

(** ** Emission *)

Lemma emit_blocks d K pids rows :
  Forall2 (pair_rows d) pids rows → emit d K pids = Ok (blocks K rows).
Proof.
  induction 1 as [|pid [i0 i1] pids rows [H0 H1] _ IH]; [done|].
  simpl in H0, H1. unfold od_get in H0, H1. simpl. unfold getitem.
  destruct (od_lookup d pid) as [m|]; [|done]. simpl in *.
  unfold getside. rewrite H0, H1. simpl. rewrite IH. simpl.
  unfold blocks, block. csimpl. by rewrite <- app_assoc.
Qed.

Lemma emit_Ok_inv d K pids out :
  emit d K pids = Ok out →
  ∃ rows, Forall2 (pair_rows d) pids rows ∧ out = blocks K rows.
Proof.
  revert out. induction pids as [|pid pids IH]; intros out; simpl.
  - intros [= <-]. exists []. split; [constructor | done].
  - unfold getitem. destruct (od_lookup d pid) as [m|] eqn:Hm; [|done].
    simpl. unfold getside.
    destruct (m !! 0%Z) as [i0|] eqn:H0; [|done]. simpl.
    destruct (m !! 1%Z) as [i1|] eqn:H1; [|done]. simpl.
    destruct (emit d K pids) as [out'|]; [|done]. simpl.
    destruct (IH out' eq_refl) as (rows & Hrows & ->). intros [= <-].
    exists ((i0, i1) :: rows). split.
    + constructor; [|done]. unfold pair_rows, od_get. by rewrite Hm.
    + unfold blocks, block. csimpl. by rewrite <- app_assoc.
Qed.

Lemma built_pair_rows ds pids :
  Forall (λ p, p ∈ (built ds).*1) pids →
  ∃ rows, Forall2 (pair_rows (built ds)) pids rows.
Proof.
  induction 1 as [|p pids Hp _ [rows IH]]; [by exists []|].
  apply built_sides in Hp as (m & i0 & i1 & Hm & H0 & H1).
  exists ((i0, i1) :: rows). constructor; [|done].
  unfold pair_rows, od_get. by rewrite Hm.
Qed.

Lemma length_block K i0 i1 : length (block K i0 i1) = 2 * Z.to_nat K.
Proof. unfold block. rewrite length_app, !length_replicate. lia. Qed.

Lemma length_blocks K rows :
  length (blocks K rows) = 2 * Z.to_nat K * length rows.
Proof.
  unfold blocks. induction rows as [|r rows IH]; csimpl; [lia|].
  rewrite length_app, length_block, IH. lia.
Qed.

Lemma elem_of_block K i0 i1 x :
  x ∈ block K i0 i1 ↔ (0 < K)%Z ∧ (x = i0 ∨ x = i1).
Proof.
  unfold block. rewrite elem_of_app, !elem_of_replicate.
  split; [intros [[-> ?]|[-> ?]] | intros [? [->| ->]]];
    first [split; [lia | auto] | left; split; [done | lia]
          | right; split; [done | lia]].
Qed.

Lemma elem_of_blocks K rows x :
  x ∈ blocks K rows ↔
    (0 < K)%Z ∧ ∃ r, r ∈ rows ∧ (x = r.1 ∨ x = r.2).
Proof.
  unfold blocks. induction rows as [|r rows IH]; csimpl.
  - split; [by intros ?%elem_of_nil | by intros (_ & ? & ?%elem_of_nil & _)].
  - rewrite elem_of_app, elem_of_block, IH. setoid_rewrite elem_of_cons.
    split.
    + intros [[? ?]|(? & r' & ? & ?)]; eauto 10.
    + intros (? & r' & [->|?] & ?); eauto 10.
Qed.

Lemma reachable_on_rank s r : reachable s → reachable (on_rank s r).
Proof.
  induction 1 as [ds K sh sd r0 w s Hinit|s e _ IH].
  - apply init_Ok in Hinit as [Hne ->].
    apply (reachable_init ds K sh sd r w). by apply init_Ok.
  - apply (reachable_set_epoch (on_rank s r) e IH).
Qed.

(** ** Construction: which pairs are kept *)

(** C2. Construction reads the positions [0 .. N-1] once, in order, and the
    stored mapping has exactly the pair ids that have both a side-0 row and
    a side-1 row; a pair id missing a side is dropped without an error
    (construction succeeds as soon as one pair is complete).  In a dataset
    with the pair ids 1, 2 and 3 where pair 3 has no side-1 row, the
    mapping has exactly the pairs 1 and 2. *)
Theorem init_keeps_complete_pairs ds K sh sd r w :
  scan ds 0 [] =
    foldl (λ acc idx,
             match ds !! idx with
             | Some ex => setitem_side acc (pair_id ex) (side ex) idx
             | None => acc
             end) [] (seq 0 (length ds)) ∧
  match __init__ ds K sh sd r w with
  | Ok s =>
      (∀ pid, pid ∈ (pair_to s).*1 ↔ complete_in ds pid) ∧
      pairs s = (pair_to s).*1 ∧ NoDup (pairs s)
  | Raise e => e = ValueError ∧ ∀ pid, ¬ complete_in ds pid
  end ∧
  ((∃ pid, complete_in ds pid) → ∃ s, __init__ ds K sh sd r w = Ok s) ∧
  ((∀ ex, ex ∈ ds → pair_id ex = 1 ∨ pair_id ex = 2 ∨ pair_id ex = 3)%Z →
   complete_in ds 1 → complete_in ds 2 → (∀ i, ¬ occurs ds 3 1 i) →
   ∃ s, __init__ ds K sh sd r w = Ok s ∧
        ∀ pid, pid ∈ (pair_to s).*1 ↔ (pid = 1 ∨ pid = 2)%Z).
Proof.
  assert ((∃ pid, complete_in ds pid) → ∃ s, __init__ ds K sh sd r w = Ok s)
    as Hsome.
  { intros Hex%built_nonempty. eexists. by apply init_Ok. }
  split_and!.
  - apply (scan_positions [] ds []).
  - destruct (__init__ ds K sh sd r w) as [s|e] eqn:Hinit.
    + apply init_Ok in Hinit as [_ ->]. simpl.
      split_and!; [apply built_keys | done | apply built_keys_NoDup].
    + apply init_Raise in Hinit as [-> Hnil]. split; [done|].
      intros pid Hpid. apply (proj2 (built_nonempty ds)); eauto.
  - done.
  - intros Hids H1 H2 H3. destruct Hsome as [s Hs]; [by exists 1%Z|].
    exists s. split; [done|]. apply init_Ok in Hs as [_ ->]. simpl.
    intros pid. rewrite built_keys. split; [|by intros [->| ->]].
    intros Hpid. pose proof Hpid as [[i Hi] [j Hj]].
    destruct (Hids (Example pid 0)) as [?|[?|?]]; simpl in *; subst; auto.
    { by eapply list_elem_of_lookup_2. }
    by destruct (H3 j).
Qed.

Example init_ds3 :
  pairs <$> (match __init__ ds3 3 false 0 0 1 with
             | Ok s => Some s | Raise _ => None end) = Some [1; 2]%Z.
Proof. reflexivity. Qed.

(** ** Construction: the configuration error *)

(** C5. Construction raises the configuration error exactly when the
    dataset has no complete pair; it then returns no instance, and it
    raises nothing else; with at least one complete pair it returns an
    instance. *)
Theorem init_error_iff_no_complete_pair ds K sh sd r w :
  (__init__ ds K sh sd r w = Raise ValueError ↔ ¬ ∃ pid, complete_in ds pid) ∧
  ((∃ s, __init__ ds K sh sd r w = Ok s) ↔ ∃ pid, complete_in ds pid) ∧
  (∀ e, __init__ ds K sh sd r w = Raise e → e = ValueError).
Proof.
  rewrite <- built_nonempty. split_and!.
  - rewrite init_Raise. split; [intros [_ ->]; auto|].
    intros Hnn. split; [done|]. by destruct (built ds); [|destruct Hnn].
  - setoid_rewrite init_Ok. split; [by intros (s & ? & _) | eauto].
  - by intros e [-> _]%init_Raise.
Qed.

(** ** Passes *)

Section Passes.

Variable random_shuffle : Z → list Z → list Z.

(** The library shuffle rearranges the list it is given. *)
Hypothesis random_shuffle_perm : ∀ s l, random_shuffle s l ≡ₚ l.

Lemma pass_order_perm s : pass_order random_shuffle s ≡ₚ pairs s.
Proof. unfold pass_order. by destruct (shuffle s). Qed.

Lemma pass_order_NoDup s : reachable s → NoDup (pass_order random_shuffle s).
Proof.
  intros [Hd Hp _ _]%reachable_invariant.
  rewrite pass_order_perm, Hp, Hd. apply built_keys_NoDup.
Qed.

Lemma local_pairs_elem_of s local p :
  local_pairs random_shuffle s = Ok local → p ∈ local → p ∈ pairs s.
Proof.
  intros Hlocal Hp. rewrite <- pass_order_perm.
  by eapply slice_from_elem_of.
Qed.

Lemma iter_inv s out :
  __iter__ random_shuffle s = Ok out →
  ∃ local rows,
    local_pairs random_shuffle s = Ok local ∧
    Forall2 (pair_rows (pair_to s)) local rows ∧
    out = blocks (mini_repeat_count s) rows.
Proof.
  unfold __iter__.
  destruct (local_pairs random_shuffle s) as [local|]; [|done]. simpl.
  intros (rows & ? & ?)%emit_Ok_inv. eauto.
Qed.

(** With a usable world size a pass over stored pairs runs to its end, and
    emits the blocks of the local pairs in their order. *)
Lemma iter_Ok_of_order s :
  reachable s → world_size s ≠ 0%Z →
  (∀ p, p ∈ pass_order random_shuffle s → p ∈ pairs s) →
  ∃ local rows,
    local_pairs random_shuffle s = Ok local ∧
    Forall2 (pair_rows (pair_to s)) local rows ∧
    __iter__ random_shuffle s = Ok (blocks (mini_repeat_count s) rows).
Proof.
  intros Hs Hw Hsub.
  destruct (slice_from_Ok (pass_order random_shuffle s) (rank s) _ Hw)
    as [local Hlocal].
  pose proof (reachable_invariant s Hs) as [Hd Hp _ _].
  destruct (built_pair_rows (data_source s) local) as [rows Hrows].
  { apply Forall_forall. intros p Hin. rewrite <- Hd, <- Hp.
    apply Hsub. by eapply slice_from_elem_of. }
  rewrite <- Hd in Hrows. exists local, rows. split_and!; [done..|].
  unfold __iter__, local_pairs. rewrite Hlocal. simpl.
  by apply emit_blocks.
Qed.

Lemma iter_Ok s :
  reachable s → world_size s ≠ 0%Z →
  ∃ local rows,
    local_pairs random_shuffle s = Ok local ∧
    Forall2 (pair_rows (pair_to s)) local rows ∧
    __iter__ random_shuffle s = Ok (blocks (mini_repeat_count s) rows).
Proof.
  intros Hs Hw. apply iter_Ok_of_order; [done..|].
  intros p. by rewrite pass_order_perm.
Qed.

(** Every emitted index is the stored row of one side of a local pair. *)
Lemma emitted_origin s out x :
  reachable s → __iter__ random_shuffle s = Ok out → x ∈ out →
  ∃ local p sd,
    local_pairs random_shuffle s = Ok local ∧ p ∈ local ∧
    (sd = 0 ∨ sd = 1)%Z ∧ od_get (pair_to s) p sd = Some x ∧
    last_occurrence (data_source s) p sd x.
Proof.
  intros Hs (local & rows & Hlocal & Hrows & ->)%iter_inv
    (_ & r & Hr & Hx)%elem_of_blocks.
  apply list_elem_of_lookup in Hr as [k Hk].
  destruct (Forall2_lookup_r _ _ _ _ _ Hrows Hk) as (p & Hp & [H0 H1]).
  apply list_elem_of_lookup_2 in Hp.
  pose proof (reachable_invariant s Hs) as [Hd _ _ _].
  destruct Hx as [->| ->]; [exists local, p, 0%Z | exists local, p, 1%Z];
    (split_and!; [done|done|auto|done|]).
  - rewrite Hd in H0. by apply built_od_get in H0 as [_ ?].
  - rewrite Hd in H1. by apply built_od_get in H1 as [_ ?].
Qed.

(** ** Emission order *)

(** C1. For an instance built by a successful construction, one pass emits,
    for the pairs selected for this worker and in their order, the side-0
    row [K] times immediately followed by the side-1 row [K] times; with
    [K = 3] and the single local pair whose sides sit at rows 5 and 9 the
    pass emits [5; 5; 5; 9; 9; 9]. *)
Theorem iter_emits_blocks s :
  reachable s → world_size s ≠ 0%Z →
  ∃ local rows,
    local_pairs random_shuffle s = Ok local ∧
    Forall2 (λ pid r,
               pair_rows (pair_to s) pid r ∧
               occurs (data_source s) pid 0 r.1 ∧
               occurs (data_source s) pid 1 r.2) local rows ∧
    __iter__ random_shuffle s =
      Ok (concat ((λ r, replicate (Z.to_nat (mini_repeat_count s)) r.1 ++
                        replicate (Z.to_nat (mini_repeat_count s)) r.2)
                    <$> rows)) ∧
    (mini_repeat_count s = 3%Z → rows = [(5, 9)] →
     __iter__ random_shuffle s = Ok [5; 5; 5; 9; 9; 9]).
Proof.
  intros Hs Hw. destruct (iter_Ok s Hs Hw) as (local & rows & ? & Hrows & Hiter).
  exists local, rows. split_and!; [done| |done|].
  - pose proof (reachable_invariant s Hs) as [Hd _ _ _].
    eapply Forall2_impl; [exact Hrows|]. intros pid r [H0 H1].
    split; [done|]. rewrite Hd in H0, H1.
    apply built_od_get in H0 as [_ [? _]].
    apply built_od_get in H1 as [_ [? _]]. done.
  - intros HK ->. by rewrite Hiter, HK.
Qed.

(** ** Determinism of the shuffle *)


(** ** The epoch update *)

(** C8. [set_epoch] stores the given epoch and leaves every other attribute
    as it was; the stored pair list is not reordered, and the new epoch
    shows only in the order computed by the next pass. *)
Theorem set_epoch_frame s e :
  epoch (set_epoch s e) = e ∧
  data_source (set_epoch s e) = data_source s ∧
  n (set_epoch s e) = n s ∧
  mini_repeat_count (set_epoch s e) = mini_repeat_count s ∧
  shuffle (set_epoch s e) = shuffle s ∧
  seed (set_epoch s e) = seed s ∧
  rank (set_epoch s e) = rank s ∧
  world_size (set_epoch s e) = world_size s ∧
  pair_to (set_epoch s e) = pair_to s ∧
  pairs (set_epoch s e) = pairs s ∧
  pass_order random_shuffle (set_epoch s e) =
    (if shuffle s then random_shuffle (seed s + e) (pairs s) else pairs s).
Proof. by split_and!. Qed.

(** ** Length *)

(** C6, as amended. For a built instance with a world size other than 0
    and a repeat count [K ≥ 0], whatever the rank, [__len__] returns
    [2 * K * |local pairs|], and this is the number of indices that the
    pass, which terminates, emits.  Without the two conditions the equality
    fails, as shown on two constructed instances further down. *)
Theorem len_exact s :
  reachable s → world_size s ≠ 0%Z → (0 ≤ mini_repeat_count s)%Z →
  ∃ local out,
    local_pairs random_shuffle s = Ok local ∧
    __iter__ random_shuffle s = Ok out ∧
    __len__ s = Ok (2 * mini_repeat_count s * Z.of_nat (length local))%Z ∧
    __len__ s = Ok (Z.of_nat (length out)).
Proof.
  intros Hs Hw HK.
  destruct (iter_Ok s Hs Hw) as (local & rows & Hlocal & Hrows & Hiter).
  exists local, (blocks (mini_repeat_count s) rows).
  destruct (slice_from_Ok (pairs s) (rank s) _ Hw) as [local0 Hlocal0].
  assert (length local0 = length local) as Hlen.
  { eapply slice_from_length; [|exact Hlocal0|exact Hlocal].
    symmetry. apply Permutation_length, pass_order_perm. }
  apply Forall2_length in Hrows.
  unfold __len__. rewrite Hlocal0. simpl. rewrite length_blocks, Hlen, <- Hrows.
  split_and!; [done..| |]; f_equal; lia.
Qed.

(** ** Safety of a pass *)

(** C9. After a successful construction a pass of a worker
    [0 ≤ rank < world_size] cannot fail, whatever the epoch and the shuffle
    flag: every lookup of the emission loop hits, and every emitted value is
    a dataset position below [N] that the construction scan recorded in the
    pair mapping. *)
Theorem iter_safe s :
  reachable s → (0 ≤ rank s < world_size s)%Z →
  ∃ out,
    __iter__ random_shuffle s = Ok out ∧
    ∀ i, i ∈ out →
      i < n s ∧
      ∃ pid sd,
        pid ∈ (pair_to s).*1 ∧ (sd = 0 ∨ sd = 1)%Z ∧
        od_get (pair_to s) pid sd = Some i ∧
        data_source s !! i = Some (Example pid sd).
Proof.
  intros Hs Hr.
  destruct (iter_Ok s Hs) as (local & rows & Hlocal & Hrows & Hiter); [lia|].
  eexists. split; [done|]. intros i Hi.
  destruct (emitted_origin s _ i Hs Hiter Hi)
    as (local' & p & sd & Hlocal' & Hp & Hsd & Hget & [Hocc _]).
  pose proof (reachable_invariant s Hs) as [_ Hpairs Hn _].
  split.
  - rewrite Hn. by eapply occurs_lt.
  - exists p, sd. split_and!; [|done..].
    rewrite <- Hpairs. by eapply local_pairs_elem_of.
Qed.

(** ** Discovery order without shuffle *)

(** C7. With the shuffle flag off, the pair order of every pass is the
    stored pair list, which lists the complete pairs in the order in which
    the construction scan first met their pair ids; the worker emits the
    blocks of its stride of that list, in that order, and neither the seed
    nor the epoch has any effect on what is emitted. *)
Theorem unshuffled_discovery_order s :
  reachable s → shuffle s = false →
  (0 ≤ rank s)%Z → (1 ≤ world_size s)%Z →
  pass_order random_shuffle s = pairs s ∧
  (∀ a b p q, a < b → pairs s !! a = Some p → pairs s !! b = Some q →
     seen_before (data_source s) p q) ∧
  (∃ local rows,
     local_pairs random_shuffle s = Ok local ∧
     (∀ k, local !! k =
             pairs s !! (Z.to_nat (rank s) + k * Z.to_nat (world_size s))) ∧
     (∀ a b p q, a < b → local !! a = Some p → local !! b = Some q →
        seen_before (data_source s) p q) ∧
     Forall2 (pair_rows (pair_to s)) local rows ∧
     __iter__ random_shuffle s = Ok (blocks (mini_repeat_count s) rows)) ∧
  (∀ s', reachable s' → shuffle s' = false →
     data_source s' = data_source s → rank s' = rank s →
     world_size s' = world_size s →
     mini_repeat_count s' = mini_repeat_count s →
     __iter__ random_shuffle s' = __iter__ random_shuffle s).
Proof.
  intros Hs Hsh Hr Hw.
  assert (∀ t, shuffle t = false → pass_order random_shuffle t = pairs t)
    as Horder.
  { intros t Ht. unfold pass_order. by rewrite Ht. }
  pose proof (reachable_invariant s Hs) as [Hd Hp _ _].
  assert (∀ a b p q, a < b → pairs s !! a = Some p → pairs s !! b = Some q →
            seen_before (data_source s) p q) as Hsorted.
  { intros a b p q. rewrite Hp, Hd.
    apply StronglySorted_lookup, built_keys_sorted. }
  split_and!; [by apply Horder | done | |].
  - destruct (iter_Ok_of_order s) as (local & rows & Hlocal & Hrows & Hiter);
      [done | lia | by rewrite Horder |].
    exists local, rows.
    assert (∀ k, local !! k =
              pairs s !! (Z.to_nat (rank s) + k * Z.to_nat (world_size s)))
      as Hpos.
    { destruct (slice_from_stride (pairs s) (Z.to_nat (rank s))
                  (Z.to_nat (world_size s))) as (l' & Hl' & Hk); [lia|].
      rewrite !Z2Nat.id in Hl' by lia.
      unfold local_pairs in Hlocal. rewrite Horder, Hl' in Hlocal by done.
      by injection Hlocal as <-. }
    split_and!; [done..| |done|done].
    intros a b p q Hab. rewrite !Hpos. apply Hsorted.
    assert (0 < Z.to_nat (world_size s)) by lia. nia.
  - intros s' Hs' Hsh' Hds Hr' Hw' HK'.
    pose proof (reachable_invariant s' Hs') as [Hd' Hp' _ _].
    unfold __iter__, local_pairs.
    rewrite !Horder by done.
    by rewrite Hp', Hd', Hds, <- Hd, <- Hp, Hr', Hw', HK'.
Qed.

(** ** Duplicated rows *)

(** C10. When two rows [i < j] carry the same pair id and side, the stored
    mapping holds for that pair id and side only the last such row, and a
    pass emits that last row and never the earlier row [i]. *)
Theorem duplicates_last_wins s pid sd i j :
  reachable s → i < j →
  occurs (data_source s) pid sd i → occurs (data_source s) pid sd j →
  (∀ k, od_get (pair_to s) pid sd = Some k →
     last_occurrence (data_source s) pid sd k ∧ j ≤ k) ∧
  (pid ∈ pairs s → ∃ k, od_get (pair_to s) pid sd = Some k) ∧
  (∀ out, __iter__ random_shuffle s = Ok out → i ∉ out) ∧
  (world_size s ≠ 0%Z →
   ∃ local out,
     local_pairs random_shuffle s = Ok local ∧
     __iter__ random_shuffle s = Ok out ∧
     (pid ∈ local → (sd = 0 ∨ sd = 1)%Z → (0 < mini_repeat_count s)%Z →
      ∃ k, od_get (pair_to s) pid sd = Some k ∧
           last_occurrence (data_source s) pid sd k ∧ k ∈ out)).
Proof.
  intros Hs Hij Hi Hj.
  pose proof (reachable_invariant s Hs) as [Hd Hp _ _].
  assert (∀ k, od_get (pair_to s) pid sd = Some k →
            last_occurrence (data_source s) pid sd k ∧ j ≤ k) as Hlast.
  { intros k Hk. rewrite Hd in Hk. apply built_od_get in Hk as [_ Hk].
    split; [done|]. destruct Hk as [_ Hk].
    destruct (decide (j ≤ k)); [done|]. destruct (Hk j); [lia | done]. }
  split_and!; [done | | |].
  - intros Hpid. rewrite Hp, Hd in Hpid. apply built_keys in Hpid.
    destruct (proj2 (scan_od_get_is_Some (data_source s) pid sd)) as [k Hk];
      [eauto|].
    exists k. rewrite Hd. apply built_od_get. split; [done|].
    by apply scan_od_get.
  - intros out Hout Hin.
    destruct (emitted_origin s out i Hs Hout Hin)
      as (_ & p & sd' & _ & _ & _ & _ & [Hocc Hno]).
    unfold occurs in Hocc, Hi. rewrite Hi in Hocc.
    injection Hocc as <- <-. by apply (Hno j).
  - intros Hw.
    destruct (iter_Ok s Hs Hw) as (local & rows & Hlocal & Hrows & Hiter).
    exists local, (blocks (mini_repeat_count s) rows).
    split_and!; [done..|]. intros Hin Hsd HK.
    apply list_elem_of_lookup in Hin as [a Ha].
    destruct (Forall2_lookup_l _ _ _ _ _ Hrows Ha) as (r & Hr & [H0 H1]).
    apply list_elem_of_lookup_2 in Hr.
    destruct Hsd as [->| ->]; [exists r.1 | exists r.2];
      (split_and!; [done | by eapply Hlast |]);
      apply elem_of_blocks; eauto 10.
Qed.

(** ** Sharding *)

Lemma stride_inj (w r1 r2 k1 k2 : nat) :
  r1 < w → r2 < w → r1 + k1 * w = r2 + k2 * w → r1 = r2 ∧ k1 = k2.
Proof. intros H1 H2 Heq. assert (k1 = k2) by nia. subst. lia. Qed.

Lemma NoDup_stride {A} (l l' : list A) (r w : nat) :
  0 < w → NoDup l → (∀ k, l' !! k = l !! (r + k * w)) → NoDup l'.
Proof.
  intros Hw Hl Hpos. apply NoDup_alt. intros a b x. rewrite !Hpos.
  intros Ha Hb. pose proof (proj1 (NoDup_alt l) Hl _ _ _ Ha Hb). nia.
Qed.

(** The pairs of worker [r]: the pass order read at [r, r + w, ...]. *)
Lemma local_pairs_on_rank s r :
  (0 ≤ r)%Z → (1 ≤ world_size s)%Z →
  ∃ local,
    local_pairs random_shuffle (on_rank s r) = Ok local ∧
    ∀ k, local !! k =
           pass_order random_shuffle s
             !! (Z.to_nat r + k * Z.to_nat (world_size s)).
Proof.
  intros Hr Hw.
  destruct (slice_from_stride (pass_order random_shuffle s) (Z.to_nat r)
              (Z.to_nat (world_size s))) as (local & Hlocal & Hpos); [lia|].
  rewrite !Z2Nat.id in Hlocal by lia. by exists local.
Qed.

Lemma local_pairs_disjoint s r1 r2 l1 l2 p :
  reachable s → (1 ≤ world_size s)%Z →
  (0 ≤ r1 < world_size s)%Z → (0 ≤ r2 < world_size s)%Z →
  local_pairs random_shuffle (on_rank s r1) = Ok l1 →
  local_pairs random_shuffle (on_rank s r2) = Ok l2 →
  p ∈ l1 → p ∈ l2 → r1 = r2.
Proof.
  intros Hs Hw Hr1 Hr2 Hl1 Hl2 [k1 Hk1]%list_elem_of_lookup
    [k2 Hk2]%list_elem_of_lookup.
  destruct (local_pairs_on_rank s r1) as (? & Hl1' & Hpos1); [lia..|].
  destruct (local_pairs_on_rank s r2) as (? & Hl2' & Hpos2); [lia..|].
  rewrite Hl1 in Hl1'. injection Hl1' as <-.
  rewrite Hl2 in Hl2'. injection Hl2' as <-.
  rewrite Hpos1 in Hk1. rewrite Hpos2 in Hk2.
  pose proof (proj1 (NoDup_alt _) (pass_order_NoDup s Hs) _ _ _ Hk1 Hk2)
    as Heq.
  apply stride_inj in Heq as [Heq _]; lia.
Qed.

Lemma local_pairs_cover s p :
  (1 ≤ world_size s)%Z → p ∈ pairs s →
  ∃ r local,
    (0 ≤ r < world_size s)%Z ∧
    local_pairs random_shuffle (on_rank s r) = Ok local ∧ p ∈ local.
Proof.
  intros Hw Hp. rewrite <- pass_order_perm in Hp.
  apply list_elem_of_lookup in Hp as [i Hi].
  set (w := Z.to_nat (world_size s)).
  assert (0 < w) as Hwpos by (unfold w; lia).
  pose proof (Nat.mod_upper_bound i w ltac:(lia)) as Hmod.
  destruct (local_pairs_on_rank s (Z.of_nat (i mod w)))
    as (local & Hlocal & Hpos); [lia..|].
  exists (Z.of_nat (i mod w)), local. split_and!; [lia | lia | done |].
  apply (list_elem_of_lookup_2 _ (i / w)). rewrite Hpos, Nat2Z.id.
  fold w. rewrite <- Hi. f_equal.
  pose proof (Nat.div_mod_eq i w). lia.
Qed.

Lemma pair_rows_inj_pid s p q sd sd' x :
  reachable s →
  od_get (pair_to s) p sd = Some x → od_get (pair_to s) q sd' = Some x →
  p = q.
Proof.
  intros [Hd _ _ _]%reachable_invariant. rewrite Hd.
  intros [_ [Hp _]]%built_od_get [_ [Hq _]]%built_od_get.
  unfold occurs in Hp, Hq. congruence.
Qed.

(** C4. For the pair order of a pass and a world size [w ≥ 1], worker [r]
    (for each [0 ≤ r < w]) takes exactly the pairs at the positions
    [r, r + w, r + 2 * w, ...]; the workers' lists have no pair in common
    and no pair twice, and together they hold every stored pair, so each
    complete pair, with both of its rows, belongs to exactly one worker;
    for [w = 2] the lists of ranks 0 and 1 together are a rearrangement of
    the pair list. *)
Theorem stride_sharding s :
  reachable s → (1 ≤ world_size s)%Z →
  (∀ r, (0 ≤ r < world_size s)%Z →
     reachable (on_rank s r) ∧
     ∃ local,
       local_pairs random_shuffle (on_rank s r) = Ok local ∧ NoDup local ∧
       ∀ k, local !! k =
              pass_order random_shuffle s
                !! (Z.to_nat r + k * Z.to_nat (world_size s))) ∧
  (∀ r1 r2 l1 l2 p,
     (0 ≤ r1 < world_size s)%Z → (0 ≤ r2 < world_size s)%Z →
     local_pairs random_shuffle (on_rank s r1) = Ok l1 →
     local_pairs random_shuffle (on_rank s r2) = Ok l2 →
     p ∈ l1 → p ∈ l2 → r1 = r2) ∧
  (∀ p, p ∈ pairs s →
     ∃ r local,
       (0 ≤ r < world_size s)%Z ∧
       local_pairs random_shuffle (on_rank s r) = Ok local ∧ p ∈ local) ∧
  (∀ r local p,
     local_pairs random_shuffle (on_rank s r) = Ok local →
     p ∈ local → p ∈ pairs s) ∧
  (∀ r1 r2 out1 out2 x,
     (0 ≤ r1 < world_size s)%Z → (0 ≤ r2 < world_size s)%Z →
     __iter__ random_shuffle (on_rank s r1) = Ok out1 →
     __iter__ random_shuffle (on_rank s r2) = Ok out2 →
     x ∈ out1 → x ∈ out2 → r1 = r2) ∧
  ((0 < mini_repeat_count s)%Z →
   ∀ p rows, p ∈ pairs s → pair_rows (pair_to s) p rows →
     ∃ r out,
       (0 ≤ r < world_size s)%Z ∧
       __iter__ random_shuffle (on_rank s r) = Ok out ∧
       rows.1 ∈ out ∧ rows.2 ∈ out) ∧
  (world_size s = 2%Z →
   ∃ l0 l1,
     local_pairs random_shuffle (on_rank s 0) = Ok l0 ∧
     local_pairs random_shuffle (on_rank s 1) = Ok l1 ∧
     l0 ++ l1 ≡ₚ pairs s).
Proof.
  intros Hs Hw.
  assert (∀ r, (0 ≤ r < world_size s)%Z →
     ∃ local,
       local_pairs random_shuffle (on_rank s r) = Ok local ∧ NoDup local ∧
       ∀ k, local !! k =
              pass_order random_shuffle s
                !! (Z.to_nat r + k * Z.to_nat (world_size s))) as Hshard.
  { intros r Hr.
    destruct (local_pairs_on_rank s r) as (local & Hlocal & Hpos); [lia..|].
    exists local. split_and!; [done| |done].
    eapply (NoDup_stride (pass_order random_shuffle s));
      [|by apply pass_order_NoDup|exact Hpos]. lia. }
  assert (∀ r local p,
     local_pairs random_shuffle (on_rank s r) = Ok local →
     p ∈ local → p ∈ pairs s) as Hsub.
  { intros r local p Hlocal Hp.
    apply (local_pairs_elem_of (on_rank s r) local p Hlocal Hp). }
  split_and!.
  - intros r Hr. split; [by apply reachable_on_rank | by apply Hshard].
  - intros r1 r2 l1 l2 p. by apply local_pairs_disjoint.
  - intros p Hp. by apply local_pairs_cover.
  - done.
  - intros r1 r2 out1 out2 x Hr1 Hr2 Hout1 Hout2 Hx1 Hx2.
    destruct (emitted_origin (on_rank s r1) out1 x)
      as (l1 & p & sd & Hl1 & Hp & _ & Hget1 & _);
      [by apply reachable_on_rank | done..|].
    destruct (emitted_origin (on_rank s r2) out2 x)
      as (l2 & q & sd' & Hl2 & Hq & _ & Hget2 & _);
      [by apply reachable_on_rank | done..|].
    simpl in Hget1, Hget2.
    pose proof (pair_rows_inj_pid s p q sd sd' x Hs Hget1 Hget2) as <-.
    by apply (local_pairs_disjoint s r1 r2 l1 l2 p).
  - intros HK p rows Hp [H0 H1].
    destruct (local_pairs_cover s p Hw Hp) as (r & local & Hr & Hlocal & Hin).
    destruct (iter_Ok (on_rank s r))
      as (local' & rows' & Hlocal' & Hrows' & Hiter);
      [by apply reachable_on_rank | simpl; lia |].
    rewrite Hlocal in Hlocal'. injection Hlocal' as <-.
    exists r, (blocks (mini_repeat_count s) rows'). split_and!; [lia..|done| |].
    all: apply list_elem_of_lookup in Hin as [a Ha].
    all: destruct (Forall2_lookup_l _ _ _ _ _ Hrows' Ha)
           as (rw & Hrw & [H0' H1']).
    all: apply list_elem_of_lookup_2 in Hrw. all: simpl in H0', H1'.
    all: apply elem_of_blocks; split; [done|]; exists rw; split; [done|].
    + left. congruence.
    + right. congruence.
  - intros Hw2.
    destruct (Hshard 0%Z) as (l0 & Hl0 & Hnd0 & _); [lia|].
    destruct (Hshard 1%Z) as (l1 & Hl1 & Hnd1 & _); [lia|].
    exists l0, l1. split_and!; [done..|].
    pose proof (reachable_invariant s Hs) as [Hd Hp _ _].
    apply NoDup_Permutation.
    + apply NoDup_app. split_and!; [done| |done].
      intros p Hp0 Hp1.
      pose proof (local_pairs_disjoint s 0 1 l0 l1 p Hs Hw) as Hneq.
      assert (0 = 1)%Z by (apply Hneq; (lia || done)). lia.
    + rewrite Hp, Hd. apply built_keys_NoDup.
    + intros p. rewrite elem_of_app. split.
      * intros [?|?]; [by apply (Hsub 0%Z l0) | by apply (Hsub 1%Z l1)].
      * intros Hin.
        destruct (local_pairs_cover s p Hw Hin) as (r & l & Hr & Hl & Hpl).
        assert (r = 0 ∨ r = 1)%Z as [-> | ->] by lia.
        -- left. rewrite Hl0 in Hl. by injection Hl as <-.
        -- right. rewrite Hl1 in Hl. by injection Hl as <-.
Qed.

End Passes.

(** ** Configurations outside the intended ones

    The results above are stated for a world size other than zero and,
    for the length, a repeat count that is not negative.  Construction
    does not check either: *)

Lemma demo_shuffle_perm s l : demo_shuffle s l ≡ₚ l.
Proof.
  unfold demo_shuffle. destruct (Z.even s); [done | apply reverse_Permutation].
Qed.

(** a zero world size passes construction, and the slice then raises in
    the first pass and in [__len__]; *)
Example zero_world_size :
  match __init__ ds3 3 false 0 0 0 with
  | Ok s =>
      __iter__ demo_shuffle s = Raise ValueError ∧
      __len__ s = Raise ValueError
  | Raise _ => False
  end.
Proof. by vm_compute. Qed.

(** with a negative repeat count a pass emits nothing while [__len__]
    computes a negative number. *)
Example negative_repeat_count :
  match __init__ ds3 (-1) false 0 0 1 with
  | Ok s => __iter__ demo_shuffle s = Ok [] ∧ __len__ s = Ok (-4)%Z
  | Raise _ => False
  end.
Proof. by vm_compute. Qed.

(** ** The theorems at concrete instances *)

Lemma s59_reachable : reachable s59.
Proof. by apply (reachable_init ds59 3 true 11 0 1). Qed.

Lemma iter_emits_blocks_witness :
  reachable s59 ∧ world_size s59 ≠ 0%Z ∧
  __iter__ demo_shuffle s59 = Ok [5; 5; 5; 9; 9; 9].
Proof.
  split; [exact s59_reachable|]. split; [done|].
  destruct (iter_emits_blocks demo_shuffle demo_shuffle_perm s59
              s59_reachable) as (local & rows & Hlocal & Hrows & _ & H59);
    [done|].
  apply H59; [reflexivity|].
  assert (local = [7%Z]) as -> by (vm_compute in Hlocal; congruence).
  inversion Hrows as [|? [i0 i1] ? ? [[H0 H1] _] Hnil]; subst.
  inversion Hnil; subst.
  vm_compute in H0, H1. congruence.
Defined.

Example iter_s59 : __iter__ demo_shuffle s59 = Ok [5; 5; 5; 9; 9; 9].
Proof. reflexivity. Qed.

Lemma s8_reachable : reachable s8.
Proof. by apply (reachable_init ds8 2 true 3 0 2). Qed.

Lemma s3_reachable : reachable s3.
Proof. by apply (reachable_init ds3 3 false 0 0 1). Qed.

Lemma sdup_reachable : reachable sdup.
Proof. by apply (reachable_init dsdup 2 false 0 0 1). Qed.

Example iter_s8_epoch4 :
  __iter__ demo_shuffle (set_epoch s8 4) = Ok [7; 7; 6; 6; 1; 1; 4; 4].
Proof. reflexivity. Qed.

Example iter_s8_rank1_epoch4 :
  __iter__ demo_shuffle (on_rank (set_epoch s8 4) 1) =
    Ok [3; 3; 5; 5; 0; 0; 2; 2].
Proof. reflexivity. Qed.

Example iter_sdup : __iter__ demo_shuffle sdup = Ok [2; 2; 1; 1].
Proof. reflexivity. Qed.


Lemma stride_sharding_witness :
  reachable (set_epoch s8 4) ∧ (1 ≤ world_size (set_epoch s8 4))%Z ∧
  ∃ l0 l1,
    local_pairs demo_shuffle (on_rank (set_epoch s8 4) 0) = Ok l0 ∧
    local_pairs demo_shuffle (on_rank (set_epoch s8 4) 1) = Ok l1 ∧
    l0 ++ l1 ≡ₚ pairs (set_epoch s8 4).
Proof.
  assert (reachable (set_epoch s8 4)) as Hs
    by exact (reachable_set_epoch s8 4 s8_reachable).
  assert (1 ≤ world_size (set_epoch s8 4))%Z as Hw by (simpl; lia).
  split; [exact Hs|]. split; [exact Hw|].
  destruct (stride_sharding demo_shuffle demo_shuffle_perm
              (set_epoch s8 4) Hs Hw) as (_ & _ & _ & _ & _ & _ & H2).
  apply H2. reflexivity.
Defined.

Lemma len_exact_witness :
  reachable s8 ∧ world_size s8 ≠ 0%Z ∧ (0 ≤ mini_repeat_count s8)%Z ∧
  ∃ local out,
    local_pairs demo_shuffle s8 = Ok local ∧
    __iter__ demo_shuffle s8 = Ok out ∧
    __len__ s8 = Ok (2 * mini_repeat_count s8 * Z.of_nat (length local))%Z ∧
    __len__ s8 = Ok (Z.of_nat (length out)).
Proof.
  assert (world_size s8 ≠ 0%Z) as Hw by (simpl; lia).
  assert (0 ≤ mini_repeat_count s8)%Z as HK by (simpl; lia).
  split; [exact s8_reachable|]. split; [exact Hw|]. split; [exact HK|].
  exact (len_exact demo_shuffle demo_shuffle_perm s8 s8_reachable Hw HK).
Defined.

Lemma unshuffled_discovery_order_witness :
  reachable s3 ∧ shuffle s3 = false ∧
  pass_order demo_shuffle s3 = pairs s3.
Proof.
  split; [exact s3_reachable|]. split; [reflexivity|].
  assert (0 ≤ rank s3)%Z as Hr by (simpl; lia).
  assert (1 ≤ world_size s3)%Z as Hw by (simpl; lia).
  exact (proj1 (unshuffled_discovery_order demo_shuffle s3 s3_reachable
                  eq_refl Hr Hw)).
Defined.

Lemma iter_safe_witness :
  reachable s8 ∧ (0 ≤ rank s8 < world_size s8)%Z ∧
  ∃ out,
    __iter__ demo_shuffle s8 = Ok out ∧
    ∀ i, i ∈ out →
      i < n s8 ∧
      ∃ pid sd,
        pid ∈ (pair_to s8).*1 ∧ (sd = 0 ∨ sd = 1)%Z ∧
        od_get (pair_to s8) pid sd = Some i ∧
        data_source s8 !! i = Some (Example pid sd).
Proof.
  assert (0 ≤ rank s8 < world_size s8)%Z as Hr by (simpl; lia).
  split; [exact s8_reachable|]. split; [exact Hr|].
  exact (iter_safe demo_shuffle demo_shuffle_perm s8 s8_reachable Hr).
Defined.

Lemma duplicates_last_wins_witness :
  reachable sdup ∧ 0 < 2 ∧
  occurs (data_source sdup) 7 0 0 ∧ occurs (data_source sdup) 7 0 2 ∧
  ∀ out, __iter__ demo_shuffle sdup = Ok out → 0 ∉ out.
Proof.
  assert (0 < 2) as Hij by lia.
  assert (occurs (data_source sdup) 7 0 0) as Hi by reflexivity.
  assert (occurs (data_source sdup) 7 0 2) as Hj by reflexivity.
  split; [exact sdup_reachable|]. split; [exact Hij|].
  split; [exact Hi|]. split; [exact Hj|].
  destruct (duplicates_last_wins demo_shuffle demo_shuffle_perm sdup 7 0 0 2
              sdup_reachable Hij Hi Hj) as (_ & _ & Hnever & _).
  exact Hnever.
Defined.

(** * Further properties of the sampler *)

(** ** More on slices *)

Lemma slice_from_zero_step {A} (l : list A) start :
  slice_from l start 0 = Raise ValueError.
Proof. by apply slice_from_Raise. Qed.

(** The number of elements of [l[r::w]] for [0 ≤ r] and [1 ≤ w]. *)
Lemma slice_from_length_stride {A} (l l' : list A) (r w : Z) :
  (0 ≤ r)%Z → (1 ≤ w)%Z → slice_from l r w = Ok l' →
  Z.of_nat (length l') =
    if decide (r < Z.of_nat (length l))%Z
    then ((Z.of_nat (length l) - r - 1) `div` w + 1)%Z else 0%Z.
Proof.
  intros Hr Hw Hs. unfold slice_from in Hs.
  destruct (slice_indices (length l) r w) as [idxs|] eqn:Hidx; [|done].
  simpl in Hs. injection Hs as <-.
  pose proof (slice_indices_lt _ _ _ _ Hidx) as Hlt.
  destruct (omap_lookup_total l idxs Hlt) as [-> _].
  unfold slice_indices in Hidx. rewrite decide_False in Hidx by lia.
  injection Hidx as <-. rewrite length_fmap, length_seq.
  repeat case_decide; try lia.
  rewrite Z2Nat.id; [done|].
  assert (0 ≤ (Z.of_nat (length l) - r - 1) `div` w)%Z
    by (apply Z.div_pos; lia).
  lia.
Qed.

(** The positions selected by a slice are pairwise distinct. *)
Lemma slice_indices_NoDup len start step idxs :
  slice_indices len start step = Ok idxs → NoDup idxs.
Proof.
  unfold slice_indices. case_decide as Hstep; [done|]. intros [= <-].
  apply NoDup_fmap_2_strong; [|apply NoDup_seq].
  intros k1 k2 [_ Hk1]%elem_of_seq [_ Hk2]%elem_of_seq. simpl in Hk1, Hk2.
  repeat case_decide; try (simpl in Hk1; lia).
  all: match type of Hk1 with
       | _ < Z.to_nat (?a `div` ?b + 1) =>
           assert (Z.of_nat k1 * b ≤ a)%Z by (apply div_count_le; lia);
           assert (Z.of_nat k2 * b ≤ a)%Z by (apply div_count_le; lia)
       end.
  all: intros Heq; apply Z2Nat.inj in Heq; nia.
Qed.

Lemma slice_from_NoDup {A} (l l' : list A) start step :
  NoDup l → slice_from l start step = Ok l' → NoDup l'.
Proof.
  intros Hl Hs. unfold slice_from in Hs.
  destruct (slice_indices (length l) start step) as [idxs|] eqn:Hidx; [|done].
  simpl in Hs. injection Hs as <-.
  pose proof (slice_indices_lt _ _ _ _ Hidx) as Hlt.
  pose proof (slice_indices_NoDup _ _ _ _ Hidx) as Hnd.
  destruct (omap_lookup_total l idxs Hlt) as [_ Hlook].
  apply NoDup_alt. intros a b x. rewrite !Hlook.
  destruct (idxs !! a) as [i|] eqn:Ha; [|done].
  destruct (idxs !! b) as [j|] eqn:Hb; [|done]. simpl.
  intros Hi Hj.
  pose proof (proj1 (NoDup_alt l) Hl _ _ _ Hi Hj) as ->.
  apply (proj1 (NoDup_alt idxs) Hnd _ _ _ Ha Hb).
Qed.

(** A negative start counts from the end of the list. *)
Lemma slice_from_negative_start {A} (l : list A) (r w : Z) :
  (r < 0)%Z → (1 ≤ w)%Z →
  slice_from l r w =
    slice_from l (if decide (- Z.of_nat (length l) ≤ r)%Z
                  then Z.of_nat (length l) + r else 0)%Z w.
Proof.
  intros Hr Hw. unfold slice_from. f_equal. unfold slice_indices.
  repeat case_decide; try lia; try done.
  by replace (r + Z.of_nat (length l))%Z with (Z.of_nat (length l) + r)%Z
    by lia.
Qed.

(** ** Lists of lists *)

Lemma elem_of_concat {A} (x : A) (ls : list (list A)) :
  x ∈ concat ls ↔ ∃ l, l ∈ ls ∧ x ∈ l.
Proof.
  induction ls as [|l ls IH]; simpl.
  - split; [by intros ?%elem_of_nil | by intros (? & ?%elem_of_nil & _)].
  - rewrite elem_of_app, IH. setoid_rewrite elem_of_cons. split.
    + intros [?|(l' & ? & ?)]; eauto.
    + intros (l' & [->|?] & ?); eauto.
Qed.

Lemma Forall2_exists_r {A B} (R : A → B → Prop) xs :
  (∀ x, x ∈ xs → ∃ y, R x y) → ∃ ys, Forall2 R xs ys.
Proof.
  induction xs as [|x xs IH]; intros Hex; [by exists []|].
  destruct (Hex x) as [y Hy]; [apply list_elem_of_here|].
  destruct IH as [ys Hys].
  { intros x' Hx'. apply Hex. by apply list_elem_of_further. }
  exists (y :: ys). by constructor.
Qed.

(** Lists attached to distinct keys, each without repetition and pairwise
    disjoint, concatenate to a list without repetition. *)
Lemma NoDup_concat_Forall2 {A B} (R : A → list B → Prop) xs ls :
  Forall2 R xs ls → NoDup xs →
  (∀ x l, x ∈ xs → R x l → NoDup l) →
  (∀ x1 x2 l1 l2 b, x1 ∈ xs → x2 ∈ xs → R x1 l1 → R x2 l2 →
     b ∈ l1 → b ∈ l2 → x1 = x2) →
  NoDup (concat ls).
Proof.
  induction 1 as [|x l xs ls HR HF IH]; intros Hxs Hnd Hdisj; simpl.
  - constructor.
  - apply NoDup_cons in Hxs as [Hx Hxs]. apply NoDup_app. split_and!.
    + apply (Hnd x); [apply list_elem_of_here | done].
    + intros b Hb (l' & Hl' & Hb')%elem_of_concat.
      apply list_elem_of_lookup in Hl' as [i Hi].
      destruct (Forall2_lookup_r _ _ _ _ _ HF Hi) as (x' & Hx' & HR').
      apply list_elem_of_lookup_2 in Hx'.
      assert (x = x') as ->; [|done].
      apply (Hdisj x x' l l' b);
        [apply list_elem_of_here | by apply list_elem_of_further | done..].
    + apply IH; [done| |].
      * intros x' l' Hx'. apply Hnd. by apply list_elem_of_further.
      * intros x1 x2 l1 l2 b H1 H2. apply Hdisj; by apply list_elem_of_further.
Qed.

Lemma NoDup_bounded_length (l : list nat) N :
  NoDup l → (∀ x, x ∈ l → x < N) → length l ≤ N.
Proof.
  intros Hnd Hlt.
  assert (l ⊆+ seq 0 N) as Hsub.
  { apply NoDup_submseteq; [done|].
    intros x Hx. apply elem_of_seq. specialize (Hlt x Hx). lia. }
  apply submseteq_length in Hsub. by rewrite length_seq in Hsub.
Qed.

(** The strides [l[0::w]], ..., [l[w-1::w]] of a list without repetition
    are, taken together, a rearrangement of the list. *)
Lemma stride_partition {A} (l : list A) (w : nat) :
  0 < w → NoDup l →
  ∃ shards,
    Forall2 (λ r sh, slice_from l (Z.of_nat r) (Z.of_nat w) = Ok sh)
      (seq 0 w) shards ∧
    concat shards ≡ₚ l.
Proof.
  intros Hw Hl.
  destruct (Forall2_exists_r
              (λ r sh, slice_from l (Z.of_nat r) (Z.of_nat w) = Ok sh)
              (seq 0 w)) as [shards Hshards].
  { intros r _. destruct (slice_from_stride l r w Hw) as (sh & ? & _). eauto. }
  exists shards. split; [done|].
  assert (∀ r sh, slice_from l (Z.of_nat r) (Z.of_nat w) = Ok sh →
            ∀ k, sh !! k = l !! (r + k * w)) as Hpos.
  { intros r sh Hsh. destruct (slice_from_stride l r w Hw) as (sh' & Hsh' & ?).
    rewrite Hsh in Hsh'. by injection Hsh' as <-. }
  apply NoDup_Permutation; [|done|].
  - eapply NoDup_concat_Forall2; [exact Hshards | apply NoDup_seq | |].
    + intros r sh _ Hsh. simpl in Hsh. by apply (slice_from_NoDup l sh _ _ Hl Hsh).
    + intros r1 r2 l1 l2 b [_ Hr1]%elem_of_seq [_ Hr2]%elem_of_seq H1 H2
        [k1 Hk1]%list_elem_of_lookup [k2 Hk2]%list_elem_of_lookup.
      simpl in H1, H2.
      rewrite (Hpos r1 l1 H1) in Hk1. rewrite (Hpos r2 l2 H2) in Hk2.
      pose proof (proj1 (NoDup_alt l) Hl _ _ _ Hk1 Hk2) as Heq.
      apply stride_inj in Heq as [? _]; [done|lia..].
  - intros x. rewrite elem_of_concat. split.
    + intros (sh & [i Hi]%list_elem_of_lookup & Hx).
      destruct (Forall2_lookup_r _ _ _ _ _ Hshards Hi) as (r & _ & Hsh).
      by eapply slice_from_elem_of.
    + intros [i Hi]%list_elem_of_lookup.
      pose proof (Nat.mod_upper_bound i w ltac:(lia)) as Hmod.
      assert (seq 0 w !! (i mod w) = Some (i mod w)) as Hr
        by (by apply lookup_seq_lt).
      destruct (Forall2_lookup_l _ _ _ _ _ Hshards Hr) as (sh & Hsh & Hslice).
      exists sh. split; [by eapply list_elem_of_lookup_2|].
      apply (list_elem_of_lookup_2 _ (i / w)).
      rewrite (Hpos _ _ Hslice), <- Hi. f_equal.
      pose proof (Nat.div_mod_eq i w). lia.
Qed.

Lemma length_concat_sum {A} (ls : list (list A)) :
  Z.of_nat (length (concat ls)) =
    foldr Z.add 0%Z ((λ l, Z.of_nat (length l)) <$> ls).
Proof.
  induction ls as [|l ls IH]; csimpl; [done|].
  rewrite length_app, <- IH. lia.
Qed.

(** ** Rows of stored pairs *)

(** The two rows of a stored pair differ, and rows of different stored
    pairs differ: the rows of pairwise distinct pair ids, listed side 0
    then side 1, are pairwise distinct rows of the dataset. *)
Lemma pair_rows_flat_NoDup ds pids rows :
  NoDup pids → Forall2 (pair_rows (built ds)) pids rows →
  NoDup (concat ((λ r, [r.1; r.2]) <$> rows)) ∧
  ∀ x, x ∈ concat ((λ r, [r.1; r.2]) <$> rows) → x < length ds.
Proof.
  intros Hnd Hrows. split.
  - eapply (NoDup_concat_Forall2
              (λ pid l, ∃ r, pair_rows (built ds) pid r ∧ l = [r.1; r.2]));
      [|exact Hnd| |].
    + apply Forall2_fmap_r. eapply Forall2_impl; [exact Hrows|].
      intros pid r ?. by exists r.
    + intros pid l _ (r & [H0 H1] & ->).
      apply built_od_get in H0 as [_ [H0 _]].
      apply built_od_get in H1 as [_ [H1 _]].
      apply NoDup_cons. split; [|apply NoDup_singleton].
      intros Heq%list_elem_of_singleton. unfold occurs in H0, H1. congruence.
    + intros p q l1 l2 x _ _ (r1 & [H0 H1] & ->) (r2 & [H0' H1'] & ->) Hx1 Hx2.
      apply built_od_get in H0 as [_ [H0 _]].
      apply built_od_get in H1 as [_ [H1 _]].
      apply built_od_get in H0' as [_ [H0' _]].
      apply built_od_get in H1' as [_ [H1' _]].
      unfold occurs in *.
      apply elem_of_cons in Hx1 as [-> | ->%list_elem_of_singleton];
        apply elem_of_cons in Hx2 as [Hx|Hx%list_elem_of_singleton];
        congruence.
  - intros x (l & (r & -> & Hr)%list_elem_of_fmap & Hx)%elem_of_concat.
    apply list_elem_of_lookup in Hr as [k Hk].
    destruct (Forall2_lookup_r _ _ _ _ _ Hrows Hk) as (pid & _ & [H0 H1]).
    apply built_od_get in H0 as [_ [H0 _]].
    apply built_od_get in H1 as [_ [H1 _]].
    apply elem_of_cons in Hx as [-> | ->%list_elem_of_singleton];
      by eapply occurs_lt.
Qed.

Lemma blocks_nonpositive K rows : (K ≤ 0)%Z → blocks K rows = [].
Proof.
  intros HK. apply nil_length_inv. rewrite length_blocks. lia.
Qed.

Lemma len_sum_concat K (ls : list (list Z)) :
  foldr Z.add 0%Z ((λ l, Z.of_nat (length l) * 2 * K)%Z <$> ls) =
    (2 * K * Z.of_nat (length (concat ls)))%Z.
Proof.
  induction ls as [|l ls IH]; csimpl; [lia|].
  rewrite length_app, IH. lia.
Qed.

(** ** Construction: size of the index *)

(** X8. A constructed instance stores at most [N / 2] pairs, since every
    stored pair has two rows of its own; a dataset with fewer than two
    rows, the empty one included, is always rejected. *)
Theorem stored_pairs_bound ds K sh sd r w :
  (∀ s, __init__ ds K sh sd r w = Ok s → 2 * length (pairs s) ≤ n s) ∧
  (length ds < 2 → __init__ ds K sh sd r w = Raise ValueError).
Proof.
  assert (∀ s, __init__ ds K sh sd r w = Ok s → 2 * length (pairs s) ≤ n s)
    as Hbound.
  { intros s [_ ->]%init_Ok. simpl.
    destruct (built_pair_rows ds (built ds).*1) as [rows Hrows].
    { by apply Forall_forall. }
    destruct (pair_rows_flat_NoDup ds _ rows (built_keys_NoDup ds) Hrows)
      as [Hnd Hlt].
    pose proof (NoDup_bounded_length _ _ Hnd Hlt) as Hlen.
    apply Forall2_length in Hrows. rewrite Hrows.
    assert (length (concat ((λ r : nat * nat, [r.1; r.2]) <$> rows)) =
              2 * length rows) as Heq
      by (clear; induction rows as [|r0 rows IH]; csimpl; lia).
    lia. }
  split; [done|]. intros Hshort.
  destruct (__init__ ds K sh sd r w) as [s|e] eqn:Hinit.
  - pose proof (Hbound s eq_refl) as Hb.
    apply init_Ok in Hinit as [Hne ->]. simpl in Hb.
    destruct (built ds); [done|]. simpl in Hb. lia.
  - by apply init_Raise in Hinit as [-> _].
Qed.

(** ** Seeds and epochs *)

Section MorePasses.

Variable random_shuffle : Z → list Z → list Z.

Hypothesis random_shuffle_perm : ∀ s l, random_shuffle s l ≡ₚ l.

(** X9. The shuffle sees the seed and the epoch through their sum only:
    an instance built with the seed [sd + d] yields at epoch [e] the
    sequence that the instance built with the seed [sd] yields at epoch
    [e + d].  Before any [set_epoch] the epoch is 0, so the first passes
    shuffle with the seed itself. *)
Theorem seed_epoch_shift ds K sh sd d r w s1 s2 :
  __init__ ds K sh sd r w = Ok s1 →
  __init__ ds K sh (sd + d) r w = Ok s2 →
  (∀ e, __iter__ random_shuffle (set_epoch s1 (e + d)) =
        __iter__ random_shuffle (set_epoch s2 e)) ∧
  pass_order random_shuffle s1 =
    (if sh then random_shuffle sd (pairs s1) else pairs s1).
Proof.
  intros [_ ->]%init_Ok [_ ->]%init_Ok. split.
  - intros e. unfold __iter__, local_pairs, pass_order. simpl.
    by replace (sd + (e + d))%Z with (sd + d + e)%Z by lia.
  - unfold pass_order. simpl. by rewrite Z.add_0_r.
Qed.

(** ** Configurations that construction does not reject *)

(** X1. Construction accepts a world size of 0 whenever the dataset has a
    complete pair; every pass and every [__len__] call of the instance
    then raises [ValueError], at every epoch. *)
Theorem zero_world_size_raises ds K sh sd r :
  (∃ pid, complete_in ds pid) →
  ∃ s, __init__ ds K sh sd r 0 = Ok s ∧
    ∀ e, __iter__ random_shuffle (set_epoch s e) = Raise ValueError ∧
         __len__ (set_epoch s e) = Raise ValueError.
Proof.
  intros Hex%built_nonempty. eexists. split; [by apply init_Ok|].
  intros e. unfold __iter__, local_pairs, __len__. simpl.
  rewrite ?slice_from_zero_step. done.
Qed.

(** What [__len__] returns, in terms of the local pairs of a pass. *)
Lemma len_value s local :
  local_pairs random_shuffle s = Ok local →
  __len__ s = Ok (Z.of_nat (length local) * 2 * mini_repeat_count s)%Z.
Proof.
  intros Hlocal. unfold __len__.
  destruct (slice_from (pairs s) (rank s) (world_size s)) as [local0|e]
    eqn:Hlocal0.
  - simpl. assert (length local0 = length local) as ->; [|done].
    eapply slice_from_length; [|done..].
    apply Permutation_length. symmetry. apply pass_order_perm.
    exact random_shuffle_perm.
  - apply slice_from_Raise in Hlocal0 as [_ Hw].
    unfold local_pairs in Hlocal. rewrite Hw in Hlocal.
    by rewrite slice_from_zero_step in Hlocal.
Qed.

(** X2. With a repeat count [K ≤ 0] a pass emits nothing, while [__len__]
    returns [2 * K * |local pairs|], which is negative as soon as [K < 0]
    and the worker has a pair. *)
Theorem nonpositive_repeat_count s :
  reachable s → world_size s ≠ 0%Z → (mini_repeat_count s ≤ 0)%Z →
  ∃ local,
    local_pairs random_shuffle s = Ok local ∧
    __iter__ random_shuffle s = Ok [] ∧
    __len__ s = Ok (2 * mini_repeat_count s * Z.of_nat (length local))%Z.
Proof.
  intros Hs Hw HK.
  destruct (iter_Ok random_shuffle random_shuffle_perm s Hs Hw)
    as (local & rows & Hlocal & _ & Hiter).
  exists local. split_and!; [done| |].
  - by rewrite Hiter, blocks_nonpositive.
  - rewrite (len_value s local Hlocal). f_equal. lia.
Qed.

(** X10. A negative rank is not rejected: it counts from the end of the
    pair list, so that rank [r] with [-P ≤ r < 0] reads the pairs of rank
    [P + r], and a rank below [-P] those of rank 0 ([P] the number of
    stored pairs). *)
Theorem negative_rank_counts_from_end s :
  (rank s < 0)%Z → (1 ≤ world_size s)%Z →
  local_pairs random_shuffle s =
    local_pairs random_shuffle
      (on_rank s (if decide (- Z.of_nat (length (pairs s)) ≤ rank s)%Z
                  then Z.of_nat (length (pairs s)) + rank s else 0)%Z) ∧
  __iter__ random_shuffle s =
    __iter__ random_shuffle
      (on_rank s (if decide (- Z.of_nat (length (pairs s)) ≤ rank s)%Z
                  then Z.of_nat (length (pairs s)) + rank s else 0)%Z).
Proof.
  intros Hr Hw.
  assert (local_pairs random_shuffle s =
    local_pairs random_shuffle
      (on_rank s (if decide (- Z.of_nat (length (pairs s)) ≤ rank s)%Z
                  then Z.of_nat (length (pairs s)) + rank s else 0)%Z))
    as Hlocal.
  { unfold local_pairs. simpl.
    rewrite (slice_from_negative_start _ (rank s)) by done.
    change (pass_order random_shuffle (on_rank s _))
      with (pass_order random_shuffle s).
    by rewrite (Permutation_length (pass_order_perm random_shuffle
                                      random_shuffle_perm s)). }
  split; [done|]. unfold __iter__. by rewrite <- Hlocal.
Qed.

(** ** Size of the shards *)

(** X3. Worker [r ≥ 0] of [w ≥ 1] gets [(P - r - 1) / w + 1] of the [P]
    stored pairs when [r < P], and none otherwise; [__len__] returns
    [2 * K] times that number, and a worker whose rank is not below [P]
    has an empty pass and the length 0. *)
Theorem shard_size s :
  reachable s → (0 ≤ rank s)%Z → (1 ≤ world_size s)%Z →
  ∃ local out,
    local_pairs random_shuffle s = Ok local ∧
    __iter__ random_shuffle s = Ok out ∧
    Z.of_nat (length local) =
      (if decide (rank s < Z.of_nat (length (pairs s)))%Z
       then (Z.of_nat (length (pairs s)) - rank s - 1) `div` world_size s + 1
       else 0)%Z ∧
    __len__ s = Ok (2 * mini_repeat_count s * Z.of_nat (length local))%Z ∧
    ((Z.of_nat (length (pairs s)) ≤ rank s)%Z →
     out = [] ∧ __len__ s = Ok 0%Z).
Proof.
  intros Hs Hr Hw.
  destruct (iter_Ok random_shuffle random_shuffle_perm s Hs)
    as (local & rows & Hlocal & Hrows & Hiter); [lia|].
  exists local, (blocks (mini_repeat_count s) rows).
  assert (Z.of_nat (length local) =
      (if decide (rank s < Z.of_nat (length (pairs s)))%Z
       then (Z.of_nat (length (pairs s)) - rank s - 1) `div` world_size s + 1
       else 0)%Z) as Hsize.
  { rewrite <- (Permutation_length
                  (pass_order_perm random_shuffle random_shuffle_perm s)).
    by apply slice_from_length_stride. }
  assert (__len__ s =
            Ok (2 * mini_repeat_count s * Z.of_nat (length local))%Z) as Hlen.
  { rewrite (len_value s local Hlocal). f_equal. lia. }
  split_and!; [done..|]. intros HP.
  rewrite decide_False in Hsize by lia.
  apply Forall2_length in Hrows.
  assert (rows = []) as -> by (apply nil_length_inv; lia).
  split; [done|]. rewrite Hlen. f_equal. lia.
Qed.

(** X4. Of two workers with ranks [0 ≤ r1 ≤ r2], the lower one never has
    fewer pairs, and when the ranks are less than a world size apart, as
    any two ranks below the world size are, it has at most one more. *)
Theorem shard_balance s r1 r2 l1 l2 :
  (1 ≤ world_size s)%Z → (0 ≤ r1 ≤ r2)%Z →
  local_pairs random_shuffle (on_rank s r1) = Ok l1 →
  local_pairs random_shuffle (on_rank s r2) = Ok l2 →
  length l2 ≤ length l1 ∧
  ((r2 < r1 + world_size s)%Z → length l1 ≤ length l2 + 1).
Proof.
  intros Hw Hr H1 H2. unfold local_pairs in H1, H2. simpl in H1, H2.
  change (pass_order random_shuffle (on_rank s r1))
    with (pass_order random_shuffle s) in H1.
  change (pass_order random_shuffle (on_rank s r2))
    with (pass_order random_shuffle s) in H2.
  apply slice_from_length_stride in H1; [|lia..].
  apply slice_from_length_stride in H2; [|lia..].
  set (P := Z.of_nat (length (pass_order random_shuffle s))) in *.
  set (w := world_size s) in *.
  destruct (decide (r2 < P)%Z) as [Hr2|Hr2].
  - rewrite decide_True in H1 by lia.
    assert ((P - r2 - 1) `div` w ≤ (P - r1 - 1) `div` w)%Z
      by (apply Z.div_le_mono; lia).
    split; [lia|]. intros Hclose.
    assert ((P - r1 - 1) `div` w ≤ (P - r2 - 1 + 1 * w) `div` w)%Z as Hle
      by (apply Z.div_le_mono; lia).
    rewrite Z.div_add in Hle by lia. lia.
  - split; [lia|]. intros Hclose.
    destruct (decide (r1 < P)%Z) as [Hr1|Hr1]; [|lia].
    assert ((P - r1 - 1) `div` w = 0)%Z by (apply Z.div_small; lia).
    lia.
Qed.

(** X5. For a world size [w ≥ 1] the local pairs of the ranks
    [0, ..., w - 1], put one after the other, are a rearrangement of the
    stored pair list: every stored pair is handed out exactly once. *)
Theorem shards_partition s :
  reachable s → (1 ≤ world_size s)%Z →
  ∃ shards,
    Forall2 (λ r sh,
               local_pairs random_shuffle (on_rank s (Z.of_nat r)) = Ok sh)
      (seq 0 (Z.to_nat (world_size s))) shards ∧
    concat shards ≡ₚ pairs s.
Proof.
  intros Hs Hw.
  destruct (stride_partition (pass_order random_shuffle s)
              (Z.to_nat (world_size s))) as (shards & Hshards & Hperm);
    [lia | by apply pass_order_NoDup |].
  exists shards. split.
  - eapply Forall2_impl; [exact Hshards|]. intros r sh Hsh.
    unfold local_pairs. simpl. by rewrite Z2Nat.id in Hsh by lia.
  - by rewrite Hperm, pass_order_perm.
Qed.

(** X6. For a world size [w ≥ 1] the values of [__len__] on the ranks
    [0, ..., w - 1] add up to [2 * K * P], [P] the number of stored
    pairs. *)
Theorem len_sum s :
  reachable s → (1 ≤ world_size s)%Z →
  ∃ lens,
    Forall2 (λ r v, __len__ (on_rank s (Z.of_nat r)) = Ok v)
      (seq 0 (Z.to_nat (world_size s))) lens ∧
    foldr Z.add 0%Z lens =
      (2 * mini_repeat_count s * Z.of_nat (length (pairs s)))%Z.
Proof.
  intros Hs Hw.
  pose proof (reachable_invariant s Hs) as [Hd Hp _ _].
  destruct (stride_partition (pairs s) (Z.to_nat (world_size s)))
    as (shards & Hshards & Hperm);
    [lia | rewrite Hp, Hd; apply built_keys_NoDup |].
  exists ((λ l, Z.of_nat (length l) * 2 * mini_repeat_count s)%Z <$> shards).
  split.
  - apply Forall2_fmap_r. eapply Forall2_impl; [exact Hshards|].
    intros r sh Hsh. rewrite Z2Nat.id in Hsh by lia.
    unfold __len__. simpl. by rewrite Hsh.
  - by rewrite len_sum_concat, Hperm.
Qed.

(** ** Groups of a pass *)

(** X7. The blocks of one pass belong to pairwise distinct dataset rows:
    no row is repeated in two groups of [K], neither across pairs nor
    between the two sides of a pair. *)
Theorem pass_rows_distinct s :
  reachable s → world_size s ≠ 0%Z →
  ∃ rows,
    __iter__ random_shuffle s = Ok (blocks (mini_repeat_count s) rows) ∧
    NoDup (concat ((λ r, [r.1; r.2]) <$> rows)) ∧
    ∀ x, x ∈ concat ((λ r, [r.1; r.2]) <$> rows) → x < n s.
Proof.
  intros Hs Hw.
  destruct (iter_Ok random_shuffle random_shuffle_perm s Hs Hw)
    as (local & rows & Hlocal & Hrows & Hiter).
  pose proof (reachable_invariant s Hs) as [Hd _ Hn _].
  exists rows. split; [done|]. rewrite Hd in Hrows. rewrite Hn.
  apply (pair_rows_flat_NoDup (data_source s) local rows); [|done].
  eapply slice_from_NoDup; [|exact Hlocal].
  by apply pass_order_NoDup.
Qed.

End MorePasses.

(** ** The further properties at concrete instances *)

Lemma s3_neg_reachable : reachable s3_neg.
Proof. by apply (reachable_init ds3 (-1) false 0 0 1). Qed.

Lemma s8w3_reachable : reachable s8w3.
Proof. by apply (reachable_init ds8 2 true 3 0 3). Qed.

Lemma s3_w0_reachable : reachable s3_w0.
Proof. by apply (reachable_init ds3 3 false 0 0 0). Qed.

(** C6, as first stated, fails on constructed instances.  With [K = -1]
    on a single worker over [ds3], [__len__] returns -4 while the pass
    emits no index; with the world size 0, [__len__] returns no integer
    and the pass emits nothing: both raise [ValueError]. *)
Lemma len_exact_counterexample :
  (reachable s3_neg ∧
   __len__ s3_neg = Ok (-4)%Z ∧
   __iter__ demo_shuffle s3_neg = Ok [] ∧
   (-4)%Z ≠ Z.of_nat (length (@nil nat))) ∧
  (reachable s3_w0 ∧
   __len__ s3_w0 = Raise ValueError ∧
   __iter__ demo_shuffle s3_w0 = Raise ValueError).
Proof.
  split.
  - split; [exact s3_neg_reachable|]. split_and!; [reflexivity..|done].
  - split; [exact s3_w0_reachable|]. split; reflexivity.
Qed.

Lemma ds3_complete : ∃ pid, complete_in ds3 pid.
Proof. exists 1%Z. split; [by exists 0 | by exists 1]. Qed.

Lemma zero_world_size_raises_witness :
  ∃ s, __init__ ds3 3 false 0 0 0 = Ok s ∧
    ∀ e, __iter__ demo_shuffle (set_epoch s e) = Raise ValueError ∧
         __len__ (set_epoch s e) = Raise ValueError.
Proof.
  exact (zero_world_size_raises demo_shuffle ds3 3 false 0 0 ds3_complete).
Defined.

Lemma nonpositive_repeat_count_witness :
  reachable s3_neg ∧ world_size s3_neg ≠ 0%Z ∧
  (mini_repeat_count s3_neg ≤ 0)%Z ∧
  ∃ local,
    local_pairs demo_shuffle s3_neg = Ok local ∧
    __iter__ demo_shuffle s3_neg = Ok [] ∧
    __len__ s3_neg =
      Ok (2 * mini_repeat_count s3_neg * Z.of_nat (length local))%Z.
Proof.
  assert (world_size s3_neg ≠ 0%Z) as Hw by (simpl; lia).
  assert (mini_repeat_count s3_neg ≤ 0)%Z as HK by (simpl; lia).
  split; [exact s3_neg_reachable|]. split; [exact Hw|]. split; [exact HK|].
  exact (nonpositive_repeat_count demo_shuffle demo_shuffle_perm s3_neg
           s3_neg_reachable Hw HK).
Defined.

Lemma shard_size_witness :
  reachable s8w3 ∧ (0 ≤ rank s8w3)%Z ∧ (1 ≤ world_size s8w3)%Z ∧
  ∃ local out,
    local_pairs demo_shuffle s8w3 = Ok local ∧
    __iter__ demo_shuffle s8w3 = Ok out ∧
    Z.of_nat (length local) = 2%Z.
Proof.
  assert (0 ≤ rank s8w3)%Z as Hr by (simpl; lia).
  assert (1 ≤ world_size s8w3)%Z as Hw by (simpl; lia).
  split; [exact s8w3_reachable|]. split; [exact Hr|]. split; [exact Hw|].
  destruct (shard_size demo_shuffle demo_shuffle_perm s8w3 s8w3_reachable
              Hr Hw) as (local & out & Hlocal & Hout & Hsize & _).
  exists local, out. split; [exact Hlocal|]. split; [exact Hout|].
  rewrite Hsize. reflexivity.
Defined.

Lemma shard_balance_witness :
  (1 ≤ world_size s8w3)%Z ∧ (0 ≤ 0 ≤ 1)%Z ∧
  local_pairs demo_shuffle (on_rank s8w3 0) = Ok [5; 1]%Z ∧
  local_pairs demo_shuffle (on_rank s8w3 1) = Ok [3]%Z ∧
  length [3%Z] ≤ length [5%Z; 1%Z] ∧
  ((1 < 0 + world_size s8w3)%Z → length [5%Z; 1%Z] ≤ length [3%Z] + 1).
Proof.
  assert (1 ≤ world_size s8w3)%Z as Hw by (simpl; lia).
  assert (0 ≤ 0 ≤ 1)%Z as Hr by lia.
  assert (local_pairs demo_shuffle (on_rank s8w3 0) = Ok [5; 1]%Z) as H0
    by reflexivity.
  assert (local_pairs demo_shuffle (on_rank s8w3 1) = Ok [3]%Z) as H1
    by reflexivity.
  split; [exact Hw|]. split; [exact Hr|]. split; [exact H0|].
  split; [exact H1|].
  exact (shard_balance demo_shuffle s8w3 0 1 [5; 1]%Z [3]%Z Hw Hr H0 H1).
Defined.

Lemma shards_partition_witness :
  reachable s8w3 ∧ (1 ≤ world_size s8w3)%Z ∧
  ∃ shards,
    Forall2 (λ r sh,
               local_pairs demo_shuffle (on_rank s8w3 (Z.of_nat r)) = Ok sh)
      (seq 0 (Z.to_nat (world_size s8w3))) shards ∧
    concat shards ≡ₚ pairs s8w3.
Proof.
  assert (1 ≤ world_size s8w3)%Z as Hw by (simpl; lia).
  split; [exact s8w3_reachable|]. split; [exact Hw|].
  exact (shards_partition demo_shuffle demo_shuffle_perm s8w3
           s8w3_reachable Hw).
Defined.

Lemma len_sum_witness :
  reachable s8w3 ∧ (1 ≤ world_size s8w3)%Z ∧
  ∃ lens,
    Forall2 (λ r v, __len__ (on_rank s8w3 (Z.of_nat r)) = Ok v)
      (seq 0 (Z.to_nat (world_size s8w3))) lens ∧
    foldr Z.add 0%Z lens = 16%Z.
Proof.
  assert (1 ≤ world_size s8w3)%Z as Hw by (simpl; lia).
  split; [exact s8w3_reachable|]. split; [exact Hw|].
  exact (len_sum s8w3 s8w3_reachable Hw).
Defined.

Lemma pass_rows_distinct_witness :
  reachable s8 ∧ world_size s8 ≠ 0%Z ∧
  ∃ rows,
    __iter__ demo_shuffle s8 = Ok (blocks (mini_repeat_count s8) rows) ∧
    NoDup (concat ((λ r, [r.1; r.2]) <$> rows)) ∧
    ∀ x, x ∈ concat ((λ r, [r.1; r.2]) <$> rows) → x < n s8.
Proof.
  assert (world_size s8 ≠ 0%Z) as Hw by (simpl; lia).
  split; [exact s8_reachable|]. split; [exact Hw|].
  exact (pass_rows_distinct demo_shuffle demo_shuffle_perm s8
           s8_reachable Hw).
Defined.

Lemma seed_epoch_shift_witness :
  __init__ ds8 2 true 3 0 2 = Ok s8 ∧
  __init__ ds8 2 true (3 + 2) 0 2 = Ok s8_seed5 ∧
  ∀ e, __iter__ demo_shuffle (set_epoch s8 (e + 2)) =
       __iter__ demo_shuffle (set_epoch s8_seed5 e).
Proof.
  assert (__init__ ds8 2 true 3 0 2 = Ok s8) as H1 by reflexivity.
  assert (__init__ ds8 2 true (3 + 2) 0 2 = Ok s8_seed5) as H2
    by reflexivity.
  split; [exact H1|]. split; [exact H2|].
  exact (proj1 (seed_epoch_shift demo_shuffle ds8 2 true 3 2 0 2
                  s8 s8_seed5 H1 H2)).
Defined.

Lemma negative_rank_counts_from_end_witness :
  (rank (on_rank s8 (-1)) < 0)%Z ∧ (1 ≤ world_size (on_rank s8 (-1)))%Z ∧
  local_pairs demo_shuffle (on_rank s8 (-1)) =
    local_pairs demo_shuffle (on_rank s8 3).
Proof.
  assert (rank (on_rank s8 (-1)) < 0)%Z as Hr by (simpl; lia).
  assert (1 ≤ world_size (on_rank s8 (-1)))%Z as Hw by (simpl; lia).
  split; [exact Hr|]. split; [exact Hw|].
  exact (proj1 (negative_rank_counts_from_end demo_shuffle demo_shuffle_perm
                  (on_rank s8 (-1)) Hr Hw)).
Defined.

Example iter_s8_rank_minus1 :
  __iter__ demo_shuffle (on_rank s8 (-1)) = Ok [0; 0; 2; 2].
Proof. reflexivity. Qed.
